(** * fix-any-types: a shallow embedding of [scripts/fix-any-types.py]

    The script rewrites TypeScript [any] annotations line by line with an
    ordered table of regular-expression substitutions.  This development
    embeds the class [TypeScriptAnyReplacer] and [main], together with the
    parts of the Python library the script calls ([re], [os.walk],
    [sorted], [open], [print]), and proves properties of the embedding.

    Text is modelled over the first 256 code points (Rocq's [ascii]); the
    character tables of [\w], [\s], [str.lower] and [str.strip] are the ones
    of Python 3 for that range.

    The [re] module is an interface, [ReModule]: what is proved about the
    control flow of the script holds for every engine.  Its instance [sre]
    is a backtracking engine for the fragment of Python's pattern syntax
    that the tables of the script use: literals, escapes, bracket
    expressions, [.], [^], [$], [\b], groups, lookahead, alternation and
    the repetitions [*], [+], [?] (greedy or lazy) of one character set.
    The statements about particular patterns and lines are about [sre].

    A file is the list of lines that [readlines] returns; reading can
    fail, and so can opening for writing.  A directory is the tree that
    [os.walk] lists.  [KeyboardInterrupt] is delivered when a file is
    opened for reading.  A method of the class is a function of [self];
    a method that assigns to a field of [self] returns the new object. *)

From Stdlib Require Import String Ascii List Bool Arith Lia.

From stdpp Require Import base tactics option list gmap strings sorting pretty.

Open Scope string_scope.

(** ** Text helpers *)

Definition chars (s : string) : list ascii := list_ascii_of_string s.

Definition text (l : list ascii) : string := string_of_list_ascii l.

Definition code (c : ascii) : nat := nat_of_ascii c.

Definition in_range (lo hi : nat) (c : ascii) : bool :=
  ((lo <=? code c) && (code c <=? hi))%nat.

(** [\d]: the decimal digits. *)
Definition is_digit (c : ascii) : bool := in_range 48 57 c.

(** [\w] on a [str] pattern: alphanumeric code points and the underscore. *)
Definition is_word (c : ascii) : bool :=
  in_range 48 57 c || in_range 65 90 c || in_range 95 95 c || in_range 97 122 c
  || in_range 170 170 c || in_range 178 179 c || in_range 181 181 c
  || in_range 185 186 c || in_range 188 190 c || in_range 192 214 c
  || in_range 216 246 c || in_range 248 255 c.

(** [\s], and the characters removed by [str.strip()]. *)
Definition is_space (c : ascii) : bool :=
  in_range 9 13 c || in_range 28 32 c || in_range 133 133 c || in_range 160 160 c.

Definition newline : ascii := ascii_of_nat 10.

(** [str.lower()], character by character. *)
Definition lower_char (c : ascii) : ascii :=
  if in_range 65 90 c || (in_range 192 222 c && negb (code c =? 215)%nat)
  then ascii_of_nat (code c + 32) else c.

Definition lower (s : string) : string := text (map lower_char (chars s)).

Fixpoint is_prefix (p s : list ascii) : bool :=
  match p, s with
  | [], _ => true
  | a :: p', b :: s' => Ascii.eqb a b && is_prefix p' s'
  | _ :: _, [] => false
  end.

Fixpoint has_infix (p s : list ascii) : bool :=
  is_prefix p s || match s with [] => false | _ :: s' => has_infix p s' end.

(** [needle in hay] on strings. *)
Definition str_in (needle hay : string) : bool := has_infix (chars needle) (chars hay).

(** [s.endswith(suffix)]. *)
Definition endswith (s suffix : string) : bool :=
  is_prefix (rev (chars suffix)) (rev (chars s)).

(** [s.strip()]. *)
Fixpoint lstrip_chars (l : list ascii) : list ascii :=
  match l with
  | c :: l' => if is_space c then lstrip_chars l' else l
  | [] => []
  end.

Definition strip (s : string) : string :=
  text (rev (lstrip_chars (rev (lstrip_chars (chars s))))).

(** [s.replace(old, new)] for a non-empty [old]: the non-overlapping
    occurrences, left to right.  [skip] counts the characters of an
    occurrence that are still to be passed over. *)
Fixpoint replace_go (old new : list ascii) (s : list ascii) (skip : nat) : list ascii :=
  match s with
  | [] => []
  | c :: s' =>
      match skip with
      | S k => replace_go old new s' k
      | O => if is_prefix old s then new ++ replace_go old new s' (length old - 1)
             else c :: replace_go old new s' 0
      end
  end.

Definition str_replace (old new s : string) : string :=
  text (replace_go (chars old) (chars new) (chars s) 0).

(** ** Exceptions *)

(** The exceptions the script can meet.  [str e] is [exn_msg e].
    [NotModelled] is not a Python exception: the reference engine below
    answers with it when a pattern leaves the fragment of the pattern
    syntax that it implements. *)
Inductive exn : Type :=
| re_error (msg : string)
| OSError (msg : string)
| UnicodeDecodeError (msg : string)
| KeyboardInterrupt
| NotModelled (what : string).

Definition exn_msg (e : exn) : string :=
  match e with
  | re_error m | OSError m | UnicodeDecodeError m | NotModelled m => m
  | KeyboardInterrupt => ""
  end.

Inductive Result (A : Type) : Type :=
| Ok (a : A)
| Raise (e : exn).
Arguments Ok {A} a.
Arguments Raise {A} e.

Definition rbind {A B} (r : Result A) (k : A -> Result B) : Result B :=
  match r with Ok a => k a | Raise e => Raise e end.

(** ** The [re] module: pattern syntax *)

(** Sets of characters: what one pattern character, escape or bracket
    expression stands for. *)
#[warnings="-register-all"] Inductive cset : Type :=
| CLit (c : ascii)
| CAny
| CWord
| CSpace
| CDigit
| CNot (s : cset)
| CSet (neg : bool) (items : list cset).

Fixpoint cset_mem (s : cset) (c : ascii) : bool :=
  match s with
  | CLit a => Ascii.eqb a c
  | CAny => negb (Ascii.eqb c newline)
  | CWord => is_word c
  | CSpace => is_space c
  | CDigit => is_digit c
  | CNot s' => negb (cset_mem s' c)
  | CSet neg items => xorb neg (existsb (fun i => cset_mem i c) items)
  end.

(** Compiled patterns.  A repetition applies to a single character set:
    the bound of the fragment ([\s*], [\w+], [.*?] are all of this form). *)
Inductive regex : Type :=
| Empty
| Chr (s : cset)
| Rep (s : cset) (lo : nat) (hi : option nat) (greedy : bool)
| Bol
| Eol
| WordB
| Cat (r1 r2 : regex)
| Alt (r1 r2 : regex)
| Group (i : nat) (r : regex)
| Look (neg : bool) (r : regex).

Module Parser.

Inductive ikind : Type := IAtom | IQuant | IAnchor | IGroup.

Record item : Type := Item { it_kind : ikind; it_re : regex }.

Inductive gkind : Type :=
| GCapture (i : nat)
| GNonCapture
| GLook (neg : bool).

(** One nesting level: the finished alternatives and the items of the
    sequence being read, both most recent first. *)
Record level : Type := Level { l_alts : list regex; l_seq : list item }.

Record opened : Type := Opened { o_kind : gkind; o_pos : nat; o_parent : level }.

(** A bracket expression being read. *)
Record cstate : Type :=
  CState { c_pos : nat; c_neg : bool; c_first : bool; c_items : list cset }.

Record pstate : Type :=
  PState { cur : level; stack : list opened; ngroups : nat; cls : option cstate }.

Definition start : pstate := PState (Level [] []) [] 0 None.

Definition seq_regex (items : list item) : regex :=
  fold_left (fun acc it => Cat (it_re it) acc) items Empty.

Fixpoint alts_regex (first : regex) (others : list regex) : regex :=
  match others with
  | [] => first
  | r :: rs => Alt first (alts_regex r rs)
  end.

Definition level_regex (l : level) : regex :=
  match rev (seq_regex (l_seq l) :: l_alts l) with
  | [] => Empty
  | r :: rs => alts_regex r rs
  end.

Definition push (it : item) (st : pstate) : pstate :=
  PState (Level (l_alts (cur st)) (it :: l_seq (cur st))) (stack st) (ngroups st) (cls st).

Definition new_alt (st : pstate) : pstate :=
  PState (Level (seq_regex (l_seq (cur st)) :: l_alts (cur st)) [])
         (stack st) (ngroups st) (cls st).

Definition open_group (k : gkind) (pos : nat) (st : pstate) : pstate :=
  PState (Level [] []) (Opened k pos (cur st) :: stack st) (ngroups st) (cls st).

Definition open_capture (pos : nat) (st : pstate) : pstate :=
  PState (Level [] []) (Opened (GCapture (S (ngroups st))) pos (cur st) :: stack st)
         (S (ngroups st)) (cls st).

Definition group_regex (k : gkind) (r : regex) : regex :=
  match k with
  | GCapture i => Group i r
  | GNonCapture => r
  | GLook neg => Look neg r
  end.

Definition close_group (st : pstate) : option pstate :=
  match stack st with
  | [] => None
  | o :: stk =>
      let it := Item IGroup (group_regex (o_kind o) (level_regex (cur st))) in
      Some (PState (Level (l_alts (o_parent o)) (it :: l_seq (o_parent o)))
                   stk (ngroups st) (cls st))
  end.

Definition at_position (msg : string) (pos : nat) : exn :=
  re_error (msg +:+ " at position " +:+ pretty pos).

Definition is_ch (c : ascii) (lit : string) : bool :=
  match lit with
  | String a EmptyString => Ascii.eqb c a
  | _ => false
  end.

Definition is_ascii_letter (c : ascii) : bool := in_range 65 90 c || in_range 97 122 c.

(** The escapes that stand for a character set or a control character,
    inside and outside brackets. *)
Definition escape_set (c : ascii) : option cset :=
  if is_ch c "w" then Some CWord else if is_ch c "W" then Some (CNot CWord)
  else if is_ch c "s" then Some CSpace else if is_ch c "S" then Some (CNot CSpace)
  else if is_ch c "d" then Some CDigit else if is_ch c "D" then Some (CNot CDigit)
  else if is_ch c "n" then Some (CLit newline)
  else if is_ch c "t" then Some (CLit (ascii_of_nat 9))
  else if is_ch c "r" then Some (CLit (ascii_of_nat 13))
  else if is_ch c "f" then Some (CLit (ascii_of_nat 12))
  else if is_ch c "v" then Some (CLit (ascii_of_nat 11))
  else if is_ch c "a" then Some (CLit (ascii_of_nat 7))
  else if is_ascii_letter c || is_digit c then None
  else Some (CLit c).

Definition outside_fragment (c : ascii) : bool :=
  is_digit c || is_ch c "A" || is_ch c "Z" || is_ch c "B" || is_ch c "x" || is_ch c "u"
  || is_ch c "U" || is_ch c "N".

(** [\c] outside brackets, the backslash at [pos]. *)
Definition escape (c : ascii) (pos : nat) : Result item :=
  match escape_set c with
  | Some s => Ok (Item IAtom (Chr s))
  | None =>
      if is_ch c "b" then Ok (Item IAnchor WordB)
      else if outside_fragment c then Raise (NotModelled "escape")
      else Raise (at_position ("bad escape \" +:+ String c "") pos)
  end.

(** [\c] inside brackets. *)
Definition class_escape (c : ascii) : Result cset :=
  match escape_set c with
  | Some s => Ok s
  | None => Raise (NotModelled "escape in a character set")
  end.

Definition cls_add (s : cset) (st : pstate) : pstate :=
  match cls st with
  | Some cs =>
      PState (cur st) (stack st) (ngroups st)
             (Some (CState (c_pos cs) (c_neg cs) false (s :: c_items cs)))
  | None => st
  end.

Definition cls_open (pos : nat) (neg : bool) (st : pstate) : pstate :=
  PState (cur st) (stack st) (ngroups st) (Some (CState pos neg true [])).

Definition cls_close (cs : cstate) (st : pstate) : pstate :=
  push (Item IAtom (Chr (CSet (c_neg cs) (rev (c_items cs)))))
       (PState (cur st) (stack st) (ngroups st) None).

Definition is_quant (c : ascii) : bool := is_ch c "*" || is_ch c "+" || is_ch c "?".

(** A quantifier read at [pos] applies to the last item of the sequence. *)
Definition quantify (q : ascii) (greedy : bool) (pos : nat) (st : pstate) : Result pstate :=
  match l_seq (cur st) with
  | [] => Raise (at_position "nothing to repeat" pos)
  | it :: items =>
      match it_kind it, it_re it with
      | IAtom, Chr s =>
          let lo := if is_ch q "+" then 1 else 0 in
          let hi := if is_ch q "?" then Some 1 else None in
          Ok (PState (Level (l_alts (cur st)) (Item IQuant (Rep s lo hi greedy) :: items))
                     (stack st) (ngroups st) (cls st))
      | IAtom, _ => Raise (NotModelled "repetition")
      | IQuant, _ => Raise (at_position "multiple repeat" pos)
      | IAnchor, _ => Raise (at_position "nothing to repeat" pos)
      | IGroup, _ => Raise (NotModelled "repetition of a group")
      end
  end.

Definition atom (c : ascii) : item :=
  if is_ch c "." then Item IAtom (Chr CAny)
  else if is_ch c "^" then Item IAnchor Bol
  else if is_ch c "$" then Item IAnchor Eol
  else Item IAtom (Chr (CLit c)).

Definition finish (st : pstate) : Result (regex * nat) :=
  match cls st with
  | Some cs => Raise (at_position "unterminated character set" (c_pos cs))
  | None =>
      match stack st with
      | [] => Ok (level_regex (cur st), ngroups st)
      | o :: _ => Raise (at_position "missing ), unterminated subpattern" (o_pos o))
      end
  end.

(** The parser reads the pattern once, left to right; [pos] is the index
    of the first character of [s] in the pattern. *)
Fixpoint parse (s : list ascii) (pos : nat) (st : pstate) {struct s}
  : Result (regex * nat) :=
  match s with
  | [] => finish st
  | c :: tl =>
      match cls st with
      | Some cs =>
          if is_ch c "]" then
            if c_first cs then parse tl (S pos) (cls_add (CLit c) st)
            else parse tl (S pos) (cls_close cs st)
          else if is_ch c "\" then
            match tl with
            | [] => Raise (at_position "bad escape (end of pattern)" pos)
            | e :: tl' =>
                rbind (class_escape e) (fun x => parse tl' (pos + 2) (cls_add x st))
            end
          else if is_ch c "-" then Raise (NotModelled "hyphen in a character set")
          else parse tl (S pos) (cls_add (CLit c) st)
      | None =>
          if is_ch c "\" then
            match tl with
            | [] => Raise (at_position "bad escape (end of pattern)" pos)
            | e :: tl' => rbind (escape e pos) (fun it => parse tl' (pos + 2) (push it st))
            end
          else if is_ch c "[" then
            match tl with
            | n :: tl' =>
                if is_ch n "^" then parse tl' (pos + 2) (cls_open pos true st)
                else parse tl (S pos) (cls_open pos false st)
            | [] => parse tl (S pos) (cls_open pos false st)
            end
          else if is_ch c "(" then
            match tl with
            | q :: tl1 =>
                if is_ch q "?" then
                  match tl1 with
                  | [] => Raise (at_position "unexpected end of pattern" (pos + 2))
                  | x :: tl2 =>
                      if is_ch x ":" then parse tl2 (pos + 3) (open_group GNonCapture pos st)
                      else if is_ch x "=" then parse tl2 (pos + 3) (open_group (GLook false) pos st)
                      else if is_ch x "!" then parse tl2 (pos + 3) (open_group (GLook true) pos st)
                      else Raise (NotModelled "group extension")
                  end
                else parse tl (S pos) (open_capture pos st)
            | [] => parse tl (S pos) (open_capture pos st)
            end
          else if is_ch c ")" then
            match close_group st with
            | Some st' => parse tl (S pos) st'
            | None => Raise (at_position "unbalanced parenthesis" pos)
            end
          else if is_ch c "|" then parse tl (S pos) (new_alt st)
          else if is_quant c then
            match tl with
            | q :: tl1 =>
                if is_ch q "?" then
                  rbind (quantify c false pos st) (fun st' => parse tl1 (pos + 2) st')
                else if is_ch q "+" then Raise (NotModelled "possessive repetition")
                else rbind (quantify c true pos st) (fun st' => parse tl (S pos) st')
            | [] => rbind (quantify c true pos st) (fun st' => parse tl (S pos) st')
            end
          else if is_ch c "{" then Raise (NotModelled "counted repetition")
          else parse tl (S pos) (push (atom c) st)
      end
  end.

End Parser.

(** [re.compile]: the compiled pattern and its number of groups, or the
    [re.error] Python raises. *)
Definition re_compile (pattern : string) : Result (regex * nat) :=
  Parser.parse (chars pattern) 0 Parser.start.

(** ** The [re] module: matching *)

(** A position in the subject: the character before it, the text from it
    on, and the groups captured so far. *)
Record mstate : Type :=
  MState { m_prev : option ascii; m_rest : list ascii; m_caps : list (nat * list ascii) }.

Definition consumed (from to : mstate) : list ascii :=
  take (length (m_rest from) - length (m_rest to)) (m_rest from).

Definition set_cap (i : nat) (from to : mstate) : mstate :=
  MState (m_prev to) (m_rest to) ((i, consumed from to) :: m_caps to).

Definition can_more (hi : option nat) : bool :=
  match hi with Some O => false | _ => true end.

(** Repetition of one character set, by backtracking: the greedy form
    tries the longest run first, the lazy one the shortest. *)
Fixpoint rep_match (greedy : bool) (s : cset) (lo : nat) (hi : option nat)
    (prev : option ascii) (rest : list ascii) (caps : list (nat * list ascii))
    (k : mstate -> option mstate) {struct rest} : option mstate :=
  let stop (_ : unit) := match lo with O => k (MState prev rest caps) | S _ => None end in
  let more (_ : unit) :=
    match rest with
    | c :: tl =>
        if cset_mem s c && can_more hi
        then rep_match greedy s (pred lo) (option_map pred hi) (Some c) tl caps k
        else None
    | [] => None
    end in
  if greedy
  then match more tt with Some x => Some x | None => stop tt end
  else match stop tt with Some x => Some x | None => more tt end.

Definition at_end (rest : list ascii) : bool :=
  match rest with
  | [] => true
  | [c] => Ascii.eqb c newline
  | _ => false
  end.

Definition word_opt (c : option ascii) : bool :=
  match c with Some a => is_word a | None => false end.

Definition at_boundary (st : mstate) : bool :=
  xorb (word_opt (m_prev st)) (word_opt (head (m_rest st))).

(** The backtracking matcher, in continuation-passing style: [k] is what
    remains to be matched after [r]. *)
Fixpoint rmatch (r : regex) (st : mstate) (k : mstate -> option mstate) {struct r}
  : option mstate :=
  match r with
  | Empty => k st
  | Chr s =>
      match m_rest st with
      | c :: tl => if cset_mem s c then k (MState (Some c) tl (m_caps st)) else None
      | [] => None
      end
  | Rep s lo hi greedy => rep_match greedy s lo hi (m_prev st) (m_rest st) (m_caps st) k
  | Bol => match m_prev st with None => k st | Some _ => None end
  | Eol => if at_end (m_rest st) then k st else None
  | WordB => if at_boundary st then k st else None
  | Cat r1 r2 => rmatch r1 st (fun st' => rmatch r2 st' k)
  | Alt r1 r2 =>
      match rmatch r1 st k with
      | Some x => Some x
      | None => rmatch r2 st k
      end
  | Group i r' => rmatch r' st (fun st' => k (set_cap i st st'))
  | Look neg r' =>
      match rmatch r' st Some with
      | Some st' => if neg then None else k (MState (m_prev st) (m_rest st) (m_caps st'))
      | None => if neg then k st else None
      end
  end.

(** The match object: [group(0)] and the numbered groups. *)
Record Match : Type := MkMatch { group0 : string; groups : list (nat * string) }.

Definition group (m : Match) (i : nat) : string :=
  match find (fun g => fst g =? i)%nat (groups m) with
  | Some g => snd g
  | None => ""
  end.

(** One attempt at the position [prev|rest]; with [must_advance] an empty
    match is refused (the attempt that follows an empty match). *)
Definition match_here (r : regex) (prev : option ascii) (rest : list ascii)
    (must_advance : bool) : option mstate :=
  rmatch r (MState prev rest [])
    (fun st' => if must_advance && (length (m_rest st') =? length rest)%nat
                then None else Some st').

Definition matched (rest : list ascii) (st' : mstate) : list ascii :=
  take (length rest - length (m_rest st')) rest.

Definition mk_match (rest : list ascii) (st' : mstate) : Match :=
  MkMatch (text (matched rest st')) (map (fun g => (fst g, text (snd g))) (m_caps st')).

(** [re.search]: the first position, left to right, with a match. *)
Fixpoint search_go (r : regex) (prev : option ascii) (rest : list ascii) : option Match :=
  match match_here r prev rest false with
  | Some st' => Some (mk_match rest st')
  | None =>
      match rest with
      | [] => None
      | c :: tl => search_go r (Some c) tl
      end
  end.

(** [re.sub]: the non-overlapping matches, left to right, each replaced
    by [repl].  [skip] counts the characters of the last match that are
    still to be passed over.  After an empty match the same position is
    tried once more for a match that is not empty. *)
Fixpoint sub_go (r : regex) (repl : Match -> list ascii) (prev : option ascii)
    (rest : list ascii) (skip : nat) {struct rest} : list ascii :=
  let next (n : nat) :=
    match rest with
    | [] => []
    | c :: tl => sub_go r repl (Some c) tl n
    end in
  let copy (_ : unit) :=
    match rest with
    | [] => []
    | c :: tl => c :: sub_go r repl (Some c) tl 0
    end in
  match skip with
  | S n => next n
  | O =>
      match match_here r prev rest false with
      | None => copy tt
      | Some st' =>
          match length (matched rest st') with
          | S n => repl (mk_match rest st') ++ next n
          | O =>
              repl (mk_match rest st') ++
              match match_here r prev rest true with
              | None => copy tt
              | Some st2 =>
                  repl (mk_match rest st2) ++ next (pred (length (matched rest st2)))
              end
          end
      end
  end.

(** Replacement templates. *)
Inductive piece : Type :=
| PLit (c : ascii)
| PGroup (i : nat).

Definition digit_val (c : ascii) : nat := code c - 48.

Fixpoint parse_template (ngroups : nat) (t : list ascii) (pos : nat) {struct t}
  : Result (list piece) :=
  match t with
  | [] => Ok []
  | c :: tl =>
      if Parser.is_ch c "\" then
        match tl with
        | [] => Raise (Parser.at_position "bad escape (end of pattern)" pos)
        | e :: tl' =>
            if is_digit e then
              if (digit_val e =? 0)%nat || match tl' with d :: _ => is_digit d | [] => false end
              then Raise (NotModelled "template escape")
              else if (ngroups <? digit_val e)%nat
              then Raise (Parser.at_position
                            ("invalid group reference " +:+ pretty (digit_val e)) (S pos))
              else rbind (parse_template ngroups tl' (pos + 2))
                         (fun ps => Ok (PGroup (digit_val e) :: ps))
            else if Parser.is_ch e "\" then
              rbind (parse_template ngroups tl' (pos + 2)) (fun ps => Ok (PLit e :: ps))
            else if Parser.is_ch e "n" then
              rbind (parse_template ngroups tl' (pos + 2)) (fun ps => Ok (PLit newline :: ps))
            else Raise (NotModelled "template escape")
        end
      else rbind (parse_template ngroups tl (S pos)) (fun ps => Ok (PLit c :: ps))
  end.

Definition expand (ps : list piece) (m : Match) : list ascii :=
  flat_map (fun p => match p with PLit c => [c] | PGroup i => chars (group m i) end) ps.

(** The second argument of [re.sub]: a template or a callable. *)
Inductive Repl : Type :=
| Template (t : string)
| Callable (f : Match -> string).

Definition callable (r : Repl) : bool :=
  match r with Callable _ => true | Template _ => false end.

(** The interface of the [re] module as the script uses it: patterns are
    given as strings and compiled at each call. *)
Class ReModule : Type := {
  re_search : string -> string -> Result (option Match);
  re_sub : string -> Repl -> string -> Result string
}.

(** The reference engine. *)
Definition sre_search (pattern s : string) : Result (option Match) :=
  rbind (re_compile pattern) (fun c => Ok (search_go (fst c) None (chars s))).

Definition sre_filter (ngroups : nat) (repl : Repl) : Result (Match -> list ascii) :=
  match repl with
  | Callable f => Ok (fun m => chars (f m))
  | Template t => rbind (parse_template ngroups (chars t) 0) (fun ps => Ok (expand ps))
  end.

Definition sre_sub (pattern : string) (repl : Repl) (s : string) : Result string :=
  rbind (re_compile pattern) (fun c =>
  rbind (sre_filter (snd c) repl) (fun f =>
  Ok (text (sub_go (fst c) f None (chars s) 0)))).

#[export] Instance sre : ReModule := {| re_search := sre_search; re_sub := sre_sub |}.

(** ** The environment: file system, console, interrupt *)

(** What [open(path, 'r', encoding='utf-8')] followed by [readlines()]
    meets at a path: a text file (its lines, and whether it may be opened
    for writing), bytes that do not decode, or a file that cannot be
    opened. *)
Inductive file : Type :=
| TextFile (lines : list string) (writable : bool)
| Undecodable
| Unreadable.

(** A directory as [os.walk] lists it: the names of its files and its
    subdirectories, in the order of the listing. *)
#[warnings="-register-all"] Inductive tree : Type :=
| Node (files : list string) (dirs : list (string * tree)).

(** [w_out] collects the arguments of [print], oldest first.  [w_sigint]
    is the interrupt: [Some n] delivers [KeyboardInterrupt] at the
    [n+1]-th [open] for reading (the model delivers it at no other
    point). *)
Record World : Type := MkWorld {
  w_files : gmap string file;
  w_dirs : gmap string tree;
  w_out : list string;
  w_sigint : option nat
}.

Definition M (A : Type) : Type := World -> Result A * World.

Definition ret {A} (a : A) : M A := fun w => (Ok a, w).

Definition bind {A B} (m : M A) (k : A -> M B) : M B :=
  fun w => match m w with
           | (Ok a, w') => k a w'
           | (Raise e, w') => (Raise e, w')
           end.

Definition lift {A} (r : Result A) : M A := fun w => (r, w).

Declare Scope m_scope.

Delimit Scope m_scope with M.

Notation "x <- m ;; k" := (bind m (fun x => k))
  (at level 100, m at next level, right associativity) : m_scope.

Notation "m ;; k" := (bind m (fun _ => k))
  (at level 100, right associativity) : m_scope.

Open Scope m_scope.

(** [for x in l: s = body(s, x)]. *)
Fixpoint for_each {A S} (body : S -> A -> M S) (l : list A) (s : S) : M S :=
  match l with
  | [] => ret s
  | x :: l' => s' <- body s x ;; for_each body l' s'
  end.

Definition print (s : string) : M unit :=
  fun w => (Ok tt, MkWorld (w_files w) (w_dirs w) (w_out w ++ [s]) (w_sigint w)).

Definition isfile (path : string) : M bool :=
  fun w => (Ok (bool_decide (is_Some (w_files w !! path))), w).

Definition set_sigint (s : option nat) (w : World) : World :=
  MkWorld (w_files w) (w_dirs w) (w_out w) s.

(** [with open(path, 'r', encoding='utf-8') as f: lines = f.readlines()]. *)
Definition read_lines (path : string) : M (list string) :=
  fun w =>
    match w_sigint w with
    | Some O => (Raise KeyboardInterrupt, set_sigint None w)
    | s =>
        let w' := set_sigint (option_map pred s) w in
        match w_files w !! path with
        | Some (TextFile lines _) => (Ok lines, w')
        | Some Undecodable =>
            (Raise (UnicodeDecodeError "'utf-8' codec can't decode byte"), w')
        | Some Unreadable =>
            (Raise (OSError ("[Errno 13] Permission denied: '" +:+ path +:+ "'")), w')
        | None =>
            (Raise (OSError ("[Errno 2] No such file or directory: '" +:+ path +:+ "'")), w')
        end
    end.

Definition can_write (path : string) (w : World) : bool :=
  match w_files w !! path with
  | Some (TextFile _ false) | Some Unreadable | Some Undecodable => false
  | _ => true
  end.

(** [with open(path, 'w', encoding='utf-8') as f: f.writelines(lines)]. *)
Definition write_lines (path : string) (lines : list string) : M unit :=
  fun w =>
    if can_write path w
    then (Ok tt, MkWorld (<[path := TextFile lines true]> (w_files w))
                         (w_dirs w) (w_out w) (w_sigint w))
    else (Raise (OSError ("[Errno 13] Permission denied: '" +:+ path +:+ "'")), w).

(** [os.path.join(root, name)] for a relative [name]. *)
Definition path_join (root name : string) : string :=
  if bool_decide (root = "") then name
  else if endswith root "/" then root +:+ name
  else root +:+ "/" +:+ name.

(** The step of [os.walk] into the subdirectory named [d]: its tree is
    looked up in the listing [l] of the directory at [top]. *)
Fixpoint descend_into {S} (walk : string -> tree -> S -> M S) (top : string)
    (l : list (string * tree)) (d : string) (s : S) : M S :=
  match l with
  | [] => ret s
  | (n, t') :: l' =>
      if String.eqb n d then walk (path_join top d) t' s
      else descend_into walk top l' d s
  end.

(** [for root, dirs, files in os.walk(top): dirs[:], s = body(...)].
    The body may assign to [dirs] in place; the walk then descends into
    the directories that are left in it, in their order. *)
Fixpoint os_walk {S} (body : string -> list string -> list string -> S -> M (list string * S))
    (top : string) (t : tree) (s : S) {struct t} : M S :=
  match t with
  | Node files dirs =>
      r <- body top (map fst dirs) files s ;;
      for_each (fun s d => descend_into (os_walk body) top dirs d s) (fst r) (snd r)
  end.

(** [sorted] on a list of [str]: code point order, character by character. *)
Fixpoint chars_le (a b : list ascii) : bool :=
  match a, b with
  | [], _ => true
  | _ :: _, [] => false
  | x :: a', y :: b' =>
      (code x <? code y)%nat || ((code x =? code y)%nat && chars_le a' b')
  end.

Definition str_le (a b : string) : Prop := chars_le (chars a) (chars b) = true.

#[export] Instance str_le_dec : RelDecision str_le.
Proof. intros a b. unfold str_le. apply _. Defined.

Definition sorted (l : list string) : list string := merge_sort str_le l.

(** ** The class [TypeScriptAnyReplacer] *)

Definition Rule : Type := string * Repl.

Record TypeScriptAnyReplacer : Type := MkReplacer {
  dry_run : bool;
  changes_made : nat;
  files_processed : nat;
  replacements : list Rule;
  context_replacements : gmap string (list Rule);
  exclude_patterns : list string;
  preserve_patterns : list string
}.

(** [lambda m: m.group(0).replace('any', 'unknown')]. *)
Definition replace_any (m : Match) : string := str_replace "any" "unknown" (group0 m).

Definition general_rules : list Rule := [
  ("\(value: any\)", Template "(value: unknown)");
  ("=> any\b", Template "=> unknown");
  (": any\[\]", Template ": unknown[]");
  (": any\s*=", Template ": unknown =");
  ("Record<string, any>", Template "Record<string, unknown>");
  ("Record<\w+, any>", Callable replace_any);
  ("<T extends any>", Template "<T>");
  ("<T = any>", Template "<T = unknown>");
  ("Array<any>", Template "Array<unknown>");
  ("any\[\]", Template "unknown[]");
  ("\(.*?: any\) => any", Callable replace_any);
  ("const \w+: any\b", Callable replace_any);
  ("let \w+: any\b", Callable replace_any);
  ("var \w+: any\b", Callable replace_any);
  (":\s*any(?=\s*[;,}])", Template ": unknown");
  ("as any(?=\s*[;,.\)]))", Template "as unknown")
].

Definition validator_rules : list Rule := [
  ("\(v: any\)", Template "(v: unknown)");
  ("\(value: any\)", Template "(value: unknown)")
].

Definition error_handler_rules : list Rule := [
  ("catch \((\w+): any\)", Template "catch (\1: unknown)");
  ("error: any", Template "error: unknown")
].

Definition api_response_rules : list Rule := [
  ("response: any", Template "response: unknown");
  ("data: any", Template "data: unknown")
].

Definition test_file_rules : list Rule := [
  ("expect\(.*?: any\)", Callable replace_any)
].

Definition builtin_exclude : list string := [
  "\.d\.ts$";
  "node_modules/";
  "\.git/";
  "dist/";
  "build/"
].

Definition builtin_preserve : list string := [
  "// @ts-ignore.*any";
  "// eslint-disable.*any";
  "JSON\.parse\(.*\): any";
  "window\.\w+.*: any"
].

(** [TypeScriptAnyReplacer.__init__], source lines 14-89. *)
Definition init (dry : bool) : TypeScriptAnyReplacer := {|
  dry_run := dry;
  changes_made := 0;
  files_processed := 0;
  replacements := general_rules;
  context_replacements :=
    <["validator" := validator_rules]>
    (<["error_handler" := error_handler_rules]>
    (<["api_response" := api_response_rules]>
    (<["test_file" := test_file_rules]> ∅)));
  exclude_patterns := builtin_exclude;
  preserve_patterns := builtin_preserve
|}.

Section Replacer.

Context `{RE : ReModule}.

(** [any(re.search(pattern, s) for pattern in patterns)]. *)
Fixpoint any_search (patterns : list string) (s : string) : Result bool :=
  match patterns with
  | [] => Ok false
  | pattern :: rest =>
      rbind (re_search pattern s) (fun m =>
      match m with
      | Some _ => Ok true
      | None => any_search rest s
      end)
  end.

(** [should_exclude_file], source lines 91-96. *)
Definition should_exclude_file (self : TypeScriptAnyReplacer) (file_path : string)
  : Result bool :=
  (fix loop (patterns : list string) : Result bool :=
     match patterns with
     | [] => Ok false
     | pattern :: rest =>
         rbind (re_search pattern file_path) (fun m =>
         match m with
         | Some _ => Ok true
         | None => loop rest
         end)
     end) (exclude_patterns self).

(** [should_preserve_line], source lines 98-103. *)
Definition should_preserve_line (self : TypeScriptAnyReplacer) (line : string)
  : Result bool :=
  (fix loop (patterns : list string) : Result bool :=
     match patterns with
     | [] => Ok false
     | pattern :: rest =>
         rbind (re_search pattern line) (fun m =>
         match m with
         | Some _ => Ok true
         | None => loop rest
         end)
     end) (preserve_patterns self).

(** [get_file_context], source lines 105-118. *)
Definition get_file_context (file_path : string) : string :=
  let path_lower := lower file_path in
  if str_in "test" path_lower || str_in "spec" path_lower then "test_file"
  else if str_in "validator" path_lower || str_in "validation" path_lower then "validator"
  else if str_in "api" path_lower
          && (str_in "client" path_lower || str_in "response" path_lower)
       then "api_response"
  else if str_in "error" path_lower || str_in "exception" path_lower then "error_handler"
  else "general".

(** One turn of a rule loop of [process_line]: the body up to the
    comparison, on the pair [(line, changes)]. *)
Definition apply_rule (acc : string * nat) (rule : Rule) : Result (string * nat) :=
  let line := fst acc in
  let changes := snd acc in
  let pattern := fst rule in
  let replacement := snd rule in
  rbind (if callable replacement
         then re_sub pattern replacement line
         else re_sub pattern replacement line) (fun new_line =>
  if bool_decide (new_line <> line) then Ok (new_line, changes + 1)
  else Ok (line, changes)).

Definition regex_warning (pattern : string) (e : exn) : string :=
  "Warning: Regex error with pattern '" +:+ pattern +:+ "': " +:+ exn_msg e.

(** The loop over the context rules: no handler, an error leaves it. *)
Definition context_step (acc : string * nat) (rule : Rule) : M (string * nat) :=
  lift (apply_rule acc rule).

(** The loop over the general rules: [re.error] is caught, reported and
    the loop goes on with the next rule. *)
Definition general_step (acc : string * nat) (rule : Rule) : M (string * nat) :=
  match apply_rule acc rule with
  | Ok acc' => ret acc'
  | Raise (re_error msg) => print (regex_warning (fst rule) (re_error msg)) ;; ret acc
  | Raise e => lift (Raise e)
  end.

(** [process_line], source lines 120-153. *)
Definition process_line (self : TypeScriptAnyReplacer) (line file_context : string)
  : M (string * nat) :=
  preserve <- lift (should_preserve_line self line) ;;
  if preserve then ret (line, 0)
  else
    acc <- match context_replacements self !! file_context with
           | Some rules => for_each context_step rules (line, 0)
           | None => ret (line, 0)
           end ;;
    for_each general_step (replacements self) acc.

(** The loop of [process_file] over [enumerate(lines, 1)], on the triple
    [(line_num, modified_lines, file_changes)]. *)
Definition line_step (self : TypeScriptAnyReplacer) (file_context : string)
    (acc : nat * list string * nat) (line : string) : M (nat * list string * nat) :=
  let line_num := fst (fst acc) in
  let modified_lines := snd (fst acc) in
  let file_changes := snd acc in
  r <- process_line self line file_context ;;
  let modified_line := fst r in
  let line_changes := snd r in
  (if (0 <? line_changes)%nat && negb (dry_run self)
   then print ("  Line " +:+ pretty line_num +:+ ": " +:+ strip line
               +:+ " -> " +:+ strip modified_line)
   else ret tt) ;;
  ret (S line_num, (modified_lines ++ [modified_line])%list, file_changes + line_changes).

Definition add_changes (self : TypeScriptAnyReplacer) (n : nat) : TypeScriptAnyReplacer :=
  MkReplacer (dry_run self) (changes_made self + n) (files_processed self)
             (replacements self) (context_replacements self)
             (exclude_patterns self) (preserve_patterns self).

Definition count_file (self : TypeScriptAnyReplacer) : TypeScriptAnyReplacer :=
  MkReplacer (dry_run self) (changes_made self) (files_processed self + 1)
             (replacements self) (context_replacements self)
             (exclude_patterns self) (preserve_patterns self).

Definition transform (self : TypeScriptAnyReplacer) (file_context : string)
    (lines : list string) : M (nat * list string * nat) :=
  for_each (line_step self file_context) lines (1, [], 0).

(** [try: ... readlines() except (UnicodeDecodeError, IOError) as e: ...]:
    [Some lines], or [None] after the warning. *)
Definition try_read (file_path : string) : M (option (list string)) :=
  fun w =>
    match read_lines file_path w with
    | (Ok lines, w') => (Ok (Some lines), w')
    | (Raise (UnicodeDecodeError msg), w') | (Raise (OSError msg), w') =>
        (print ("Warning: Could not read " +:+ file_path +:+ ": " +:+ msg) ;; ret None) w'
    | (Raise e, w') => (Raise e, w')
    end.

(** [process_file], source lines 155-190: the object after the call and
    the value returned. *)
Definition process_file (self : TypeScriptAnyReplacer) (file_path : string)
  : M (TypeScriptAnyReplacer * bool) :=
  exclude <- lift (should_exclude_file self file_path) ;;
  if exclude then ret (self, false)
  else
    read <- try_read file_path ;;
    match read with
    | None => ret (self, false)
    | Some lines =>
        let file_context := get_file_context file_path in
        acc <- transform self file_context lines ;;
        let modified_lines := snd (fst acc) in
        let file_changes := snd acc in
        if (0 <? file_changes)%nat then
          (if dry_run self
           then print ("[DRY RUN] Would modify " +:+ file_path +:+ ": "
                       +:+ pretty file_changes +:+ " changes")
           else write_lines file_path modified_lines ;;
                print ("Modified " +:+ file_path +:+ ": "
                       +:+ pretty file_changes +:+ " changes")) ;;
          ret (add_changes self file_changes, true)
        else ret (self, false)
    end.

(** [d for d in dirs if not any(re.search(pattern, os.path.join(root, d)) ...)]. *)
Fixpoint keep_dirs (self : TypeScriptAnyReplacer) (root : string) (dirs : list string)
  : Result (list string) :=
  match dirs with
  | [] => Ok []
  | d :: rest =>
      rbind (any_search (exclude_patterns self) (path_join root d)) (fun excluded =>
      rbind (keep_dirs self root rest) (fun kept =>
      Ok (if excluded then kept else d :: kept)))
  end.

Definition is_typescript (file : string) : bool :=
  (endswith file ".ts" || endswith file ".tsx") && negb (endswith file ".d.ts").

(** The inner loop [for file in files] of [find_typescript_files]. *)
Definition file_step (self : TypeScriptAnyReplacer) (root : string)
    (ts_files : list string) (file : string) : M (list string) :=
  if is_typescript file then
    let file_path := path_join root file in
    exclude <- lift (should_exclude_file self file_path) ;;
    if negb exclude then ret (ts_files ++ [file_path])%list else ret ts_files
  else ret ts_files.

(** The body of the loop over [os.walk(directory)]: the list left in
    [dirs] and the files collected so far. *)
Definition walk_body (self : TypeScriptAnyReplacer) (root : string)
    (dirs files : list string) (ts_files : list string) : M (list string * list string) :=
  kept <- lift (keep_dirs self root dirs) ;;
  ts_files' <- for_each (file_step self root) files ts_files ;;
  ret (kept, ts_files').

(** [find_typescript_files], source lines 192-206.  [os.walk] on a path
    that is no directory yields nothing. *)
Definition find_typescript_files (self : TypeScriptAnyReplacer) (directory : string)
  : M (list string) :=
  fun w =>
    match w_dirs w !! directory with
    | None => ret (sorted []) w
    | Some t => (ts_files <- os_walk (walk_body self) directory t [] ;;
                 ret (sorted ts_files)) w
    end.

(** The first loop of [run]. *)
Definition collect_step (self : TypeScriptAnyReplacer) (all_files : list string)
    (directory : string) : M (list string) :=
  f <- isfile directory ;;
  if f then ret (all_files ++ [directory])%list
  else found <- find_typescript_files self directory ;; ret (all_files ++ found)%list.

Definition collect_files (self : TypeScriptAnyReplacer) (directories : list string)
  : M (list string) :=
  for_each (collect_step self) directories [].

(** The second loop of [run], on the pair [(self, files_modified)]. *)
Definition file_loop_step (acc : TypeScriptAnyReplacer * nat) (file_path : string)
  : M (TypeScriptAnyReplacer * nat) :=
  let self := count_file (fst acc) in
  r <- process_file self file_path ;;
  ret (fst r, if snd r then snd acc + 1 else snd acc).

Definition nl : string := String newline "".

Definition summary (self : TypeScriptAnyReplacer) (files_modified : nat) : M unit :=
  print (nl +:+ "Summary:") ;;
  print ("  Files processed: " +:+ pretty (files_processed self)) ;;
  print ("  Files modified: " +:+ pretty files_modified) ;;
  print ("  Total changes: " +:+ pretty (changes_made self)) ;;
  if dry_run self then print (nl +:+ "Run without --dry-run to apply changes") else ret tt.

(** [run], source lines 208-236: returns the object as the call leaves
    it. *)
Definition run (self : TypeScriptAnyReplacer) (directories : list string)
  : M TypeScriptAnyReplacer :=
  all_files <- collect_files self directories ;;
  print ("Found " +:+ pretty (length all_files) +:+ " TypeScript files to process") ;;
  (if dry_run self then print "=== DRY RUN MODE - No files will be modified ==="
   else ret tt) ;;
  acc <- for_each file_loop_step all_files (self, 0) ;;
  summary (fst acc) (snd acc) ;;
  ret (fst acc).

(** The parsed command line. *)
Record Args : Type := MkArgs {
  paths : list string;
  arg_dry_run : bool;
  exclude : option (list string)
}.

Definition extend_exclude (self : TypeScriptAnyReplacer) (more : list string)
  : TypeScriptAnyReplacer :=
  MkReplacer (dry_run self) (changes_made self) (files_processed self)
             (replacements self) (context_replacements self)
             (exclude_patterns self ++ more)%list (preserve_patterns self).

(** The object [main] builds: [TypeScriptAnyReplacer(dry_run=...)], with
    the patterns of [--exclude] added when there are any. *)
Definition main_replacer (args : Args) : TypeScriptAnyReplacer :=
  let replacer := init (arg_dry_run args) in
  match exclude args with
  | Some (p :: ps) => extend_exclude replacer (p :: ps)
  | _ => replacer
  end.

(** [main] after [parse_args], source lines 246-260: the value returned,
    which is the exit status, and the world it leaves. *)
Definition main (args : Args) (w : World) : nat * World :=
  let replacer := main_replacer args in
  match run replacer (paths args) w with
  | (Ok _, w') => (0, w')
  | (Raise KeyboardInterrupt, w') =>
      (0, snd (print (nl +:+ "Operation cancelled by user") w'))
  | (Raise e, w') => (1, snd (print ("Error: " +:+ exn_msg e) w'))
  end.

End Replacer.

(** ** Measures and relations the statements use *)

Section Measures.

Context `{RE : ReModule}.

(** What one rule makes of a line: the substituted text, or the line
    itself when the substitution raised. *)
Definition rule_output (rule : Rule) (line : string) : string :=
  match re_sub (fst rule) (snd rule) line with
  | Ok s => s
  | Raise _ => line
  end.

(** The number of rule applications, in the order of [rules], whose
    substitution changed the text it was given. *)
Fixpoint changed_applications (rules : list Rule) (line : string) : nat :=
  match rules with
  | [] => 0
  | rule :: rest =>
      let out := rule_output rule line in
      (if bool_decide (out <> line) then 1 else 0) + changed_applications rest out
  end.

Definition final_line (rules : list Rule) (line : string) : string :=
  fold_left (fun l rule => rule_output rule l) rules line.

(** The rules [process_line] applies to a line, in order. *)
Definition applied_rules (self : TypeScriptAnyReplacer) (line file_context : string)
  : list Rule :=
  match should_preserve_line self line with
  | Ok false =>
      (default [] (context_replacements self !! file_context) ++ replacements self)%list
  | _ => []
  end.

(** What [process_file] has computed when it reaches the test on
    [file_changes]: the transformed lines, the cumulative change count and
    the world at that point.  [None] when the file is excluded, is not
    read, or a line raises. *)
Definition scan (self : TypeScriptAnyReplacer) (file_path : string)
    (w : World) : option (list string * nat * World) :=
  match should_exclude_file self file_path with
  | Ok false =>
      match try_read file_path w with
      | (Ok (Some lines), w1) =>
          match transform self (get_file_context file_path) lines w1 with
          | (Ok acc, w2) => Some (snd (fst acc), snd acc, w2)
          | (Raise _, _) => None
          end
      | _ => None
      end
  | _ => None
  end.

(** [modified] is [lines] with every line replaced by what
    [process_line] returns for it. *)
Definition transformed (self : TypeScriptAnyReplacer)
    (file_context : string) (lines modified : list string) : Prop :=
  Forall2 (fun line m => exists c wa wb,
             process_line self line file_context wa = (Ok (m, c), wb))
          lines modified.

(** [located top t chain p]: the tree [t] of the directory [top] holds a
    file of path [p]; [chain] lists the paths of the subdirectories on
    the way from [top] down to it. *)
Inductive located : string -> tree -> list string -> string -> Prop :=
| located_here top files dirs f :
    f ∈ files -> located top (Node files dirs) [] (path_join top f)
| located_below top files dirs d t chain p :
    (d, t) ∈ dirs -> located (path_join top d) t chain p ->
    located top (Node files dirs) (path_join top d :: chain) p.

(** No exclude pattern matches the path. *)
Definition not_excluded (self : TypeScriptAnyReplacer) (path : string) : Prop :=
  any_search (exclude_patterns self) path = Ok false.

(** Every file the walk collects is reached from [top] through
    subdirectories that no exclude pattern matches. *)
Definition reached (self : TypeScriptAnyReplacer) (top : string) (t : tree) (p : string)
  : Prop :=
  exists chain, located top t chain p /\ Forall (not_excluded self) chain.


End Measures.

(** ** What the statements about the reference engine use *)

Module Engine.

(** [w] occurs in [l]. *)
Definition occurs (w l : list ascii) : Prop := exists pre post, l = (pre ++ w ++ post)%list.

(** [starts_with r w]: every match of [r] begins with the literal text
    [w].  [requires w r]: every match of [r] contains it. *)
Fixpoint starts_with (r : regex) (w : list ascii) {struct r} : bool :=
  match w with
  | [] => true
  | c :: w' =>
      match r with
      | Chr (CLit a) => Ascii.eqb a c && match w' with [] => true | _ :: _ => false end
      | Cat (Chr (CLit a)) r2 => Ascii.eqb a c && starts_with r2 w'
      | Group _ r' => starts_with r' w
      | _ => false
      end
  end.

Fixpoint requires (w : list ascii) (r : regex) {struct r} : bool :=
  starts_with r w ||
  match r with
  | Cat r1 r2 => requires w r1 || requires w r2
  | Alt r1 r2 => requires w r1 && requires w r2
  | Group _ r' => requires w r'
  | _ => false
  end.

End Engine.

Module Builtin.

Definition any : list ascii := chars "any".

(** The pattern compiles and the replacement is a callable or a
    template that parses. *)
Definition rule_valid (rule : Rule) : bool :=
  match re_compile (fst rule) with
  | Ok c => match sre_filter (snd c) (snd rule) with Ok _ => true | Raise _ => false end
  | Raise _ => false
  end.

(** The pattern can only match where the text [any] occurs. *)
Definition rule_needs_any (rule : Rule) : bool :=
  match re_compile (fst rule) with
  | Ok c => Engine.requires any (fst c)
  | Raise _ => false
  end.

Definition rule_sound (rule : Rule) : bool := rule_valid rule && rule_needs_any rule.

Definition as_any_rule : Rule := ("as any(?=\s*[;,.\)]))", Template "as unknown").

Definition as_any_error : exn := re_error "unbalanced parenthesis at position 20".

Definition working_rules : list Rule := removelast general_rules.

Definition as_any_warning : string := regex_warning (fst as_any_rule) as_any_error.

Definition warn (w : World) : World :=
  MkWorld (w_files w) (w_dirs w) (w_out w ++ [as_any_warning]) (w_sigint w).

End Builtin.

(** ** Replacers and worlds of the examples *)

Definition empty_world : World := MkWorld ∅ ∅ [] None.

Definition without_preserve (self : TypeScriptAnyReplacer) : TypeScriptAnyReplacer :=
  MkReplacer (dry_run self) (changes_made self) (files_processed self)
             (replacements self) (context_replacements self) (exclude_patterns self) [].


Definition with_replacements (self : TypeScriptAnyReplacer) (rules : list Rule)
  : TypeScriptAnyReplacer :=
  MkReplacer (dry_run self) (changes_made self) (files_processed self)
             rules (context_replacements self)
             (exclude_patterns self) (preserve_patterns self).



(** [needle] occurs in [path] when case is ignored: some stretch of
    [path] is [needle] once lowered. *)
Definition ci_contains (needle path : string) : Prop :=
  exists pre mid post,
    chars path = (pre ++ mid ++ post)%list /\ map lower_char mid = chars needle.

(** [m] leaves every world in relation [P] with the world it started in. *)
Definition keeps {A} (P : World -> World -> Prop) (m : M A) : Prop :=
  forall w, P w (snd (m w)).

Definition same_world (w w' : World) : Prop := w' = w.

Definition same_disk (w w' : World) : Prop :=
  w_files w' = w_files w /\ w_dirs w' = w_dirs w.

(** A world with one file, which may not be opened for writing. *)
Definition read_only_world : World :=
  MkWorld (<["src/a.ts" := TextFile ["let x: any;"] false]> ∅) ∅ [] None.

Definition writable_world : World :=
  MkWorld (<["src/a.ts" := TextFile ["let x: any;"; "ok"] true]>
           (<["src/b.ts" := TextFile ["ok"] true]> ∅)) ∅ [] None.

Definition project_tree : tree :=
  Node ["b.ts"; "a.ts"; "types.d.ts"; "notes.md"]
       [("node_modules", Node ["m.ts"] [("deep", Node ["q.ts"] [])]);
        ("lib", Node ["z.tsx"] []);
        ("gen", Node ["g.ts"] [])].

Definition project_world : World :=
  MkWorld ∅ (<["src" := project_tree]> ∅) [] None.

Definition two_files_world : World :=
  MkWorld (<["b.ts" := TextFile ["let b: any;"] true]>
           (<["a.ts" := TextFile ["let a: any;"] true]> ∅)) ∅ [] None.


Definition after_two_files : TypeScriptAnyReplacer :=
  MkReplacer true 2 2 general_rules (context_replacements (init true))
             builtin_exclude builtin_preserve.

Definition interrupted_world : World :=
  MkWorld (<["b.ts" := TextFile ["let b: any;"] true]>
           (<["a.ts" := TextFile ["let a: any;"] true]> ∅)) ∅ [] (Some 1).

Definition failing_args : Args := MkArgs ["src/a.ts"] false None.

Definition interrupted_args : Args := MkArgs ["b.ts"] false None.

Definition dry_args : Args := MkArgs ["b.ts"] true None.

(** ** Relations of the further statements *)

(** [touches S w w']: from [w] to [w'] the directories are what they
    were, every file whose path is not in [S] has the content it had, and
    no path has appeared or disappeared. *)
Definition touches (S : list string) (w w' : World) : Prop :=
  w_dirs w' = w_dirs w
  /\ (forall q, q ∉ S -> w_files w' !! q = w_files w !! q)
  /\ (forall q, is_Some (w_files w' !! q) <-> is_Some (w_files w !! q)).

(** The list [all_files] that [run] builds, empty when building it
    raises. *)
Definition candidates_of `{RE : ReModule} (self : TypeScriptAnyReplacer)
    (directories : list string) (w : World) : list string :=
  match fst (collect_files self directories w) with
  | Ok all_files => all_files
  | Raise _ => []
  end.

(** The fields of [self] that no method assigns to. *)
Definition same_tables (self self' : TypeScriptAnyReplacer) : Prop :=
  dry_run self' = dry_run self
  /\ replacements self' = replacements self
  /\ context_replacements self' = context_replacements self
  /\ exclude_patterns self' = exclude_patterns self
  /\ preserve_patterns self' = preserve_patterns self.

(** What [open] for reading fails on. *)
Definition unreadable (path : string) (w : World) : Prop :=
  w_files w !! path = None \/ w_files w !! path = Some Undecodable
  \/ w_files w !! path = Some Unreadable.

(** The message of the exception that reading [path] raises. *)
Definition read_error (path : string) (w : World) : string :=
  match fst (read_lines path w) with
  | Raise e => exn_msg e
  | Ok _ => ""
  end.

(** [re.search] with this pattern raises whatever the subject: the
    pattern does not compile. *)
Definition always_raises `{RE : ReModule} (pattern : string) : Prop :=
  forall s, exists e, re_search pattern s = Raise e.

(** What [run] prints when there is no candidate. *)
Definition empty_report (dry : bool) : list string :=
  (["Found 0 TypeScript files to process"]
   ++ (if dry then ["=== DRY RUN MODE - No files will be modified ==="] else [])
   ++ [nl +:+ "Summary:"; "  Files processed: 0"; "  Files modified: 0"; "  Total changes: 0"]
   ++ (if dry then [nl +:+ "Run without --dry-run to apply changes"] else []))%list.

(** The lines of the summary that [run] prints at its end. *)
Definition summary_lines (self : TypeScriptAnyReplacer) (files_modified : nat)
  : list string :=
  ([nl +:+ "Summary:";
    "  Files processed: " +:+ pretty (files_processed self);
    "  Files modified: " +:+ pretty files_modified;
    "  Total changes: " +:+ pretty (changes_made self)]
   ++ (if dry_run self then [nl +:+ "Run without --dry-run to apply changes"] else []))%list.

(** A world in which one of two files does not decode. *)
Definition broken_world : World :=
  MkWorld (<["a.ts" := Undecodable]> (<["b.ts" := TextFile ["let b: any;"] true]> ∅))
          ∅ [] None.

(** [candidate self top t p]: the tree [t] of the directory [top] holds,
    under subdirectories that no exclude pattern matches, a file of path
    [p] whose name has a TypeScript extension and which no exclude
    pattern matches. *)
Inductive candidate `{RE : ReModule} (self : TypeScriptAnyReplacer)
  : string -> tree -> string -> Prop :=
| candidate_here top files dirs f :
    f ∈ files -> is_typescript f = true ->
    should_exclude_file self (path_join top f) = Ok false ->
    candidate self top (Node files dirs) (path_join top f)
| candidate_below top files dirs d t p :
    (d, t) ∈ dirs ->
    any_search (exclude_patterns self) (path_join top d) = Ok false ->
    candidate self (path_join top d) t p ->
    candidate self top (Node files dirs) p.

(** No directory of the tree lists two subdirectories of the same name. *)
Inductive unique_names : tree -> Prop :=
| unique_names_node files dirs :
    NoDup (map fst dirs) ->
    Forall (fun nt => unique_names (snd nt)) dirs ->
    unique_names (Node files dirs).

(** The pattern that matches the literal text [w] and then [tail]. *)
Definition lit_then (w : list ascii) (tail : regex) : regex :=
  fold_right (fun c r => Cat (Chr (CLit c)) r) tail w.

(** [w] ends [s], or ends it but for a final newline: where [$] after
    the literal text [w] can match. *)
Fixpoint at_end_after (w s : list ascii) : bool :=
  (is_prefix w s && at_end (drop (length w) s))
  || match s with [] => false | _ :: s' => at_end_after w s' end.

(** The paths that the built-in exclude patterns match: the declaration
    files, and every path that contains [node_modules/], [.git/], [dist/]
    or [build/]. *)
Definition builtin_excluded (path : string) : bool :=
  endswith path ".d.ts" || endswith path (".d.ts" +:+ nl)
  || str_in "node_modules/" path || str_in ".git/" path
  || str_in "dist/" path || str_in "build/" path.

(** [succeeds Inv m]: started in a world that satisfies [Inv], [m]
    returns, and in a world that satisfies [Inv]. *)
Definition succeeds {A} (Inv : World -> Prop) (m : M A) : Prop :=
  forall w, Inv w -> exists a w', m w = (Ok a, w') /\ Inv w'.

(** No interrupt is pending and every text file may be written. *)
Definition benign (w : World) : Prop :=
  w_sigint w = None
  /\ forall p lines wr, w_files w !! p = Some (TextFile lines wr) -> wr = true.

(** Only [print] has acted between [w] and [w']. *)
Definition only_prints (w w' : World) : Prop :=
  w_files w' = w_files w /\ w_dirs w' = w_dirs w /\ w_sigint w' = w_sigint w.

(** [m] returns and leaves the world as it is. *)
Definition pure_ok {A} (m : M A) : Prop := forall w, exists a, m w = (Ok a, w).

(** Every pattern given with [--exclude] compiles. *)
Definition exclude_compiles (args : Args) : Prop :=
  forall p, p ∈ default [] (exclude args) -> exists c, re_compile p = Ok c.

(** * Theorems *)

(** ** Text helpers *)

Lemma text_chars s : text (chars s) = s.
Proof. apply string_of_list_ascii_of_string. Qed.

Lemma chars_text l : chars (text l) = l.
Proof. apply list_ascii_of_string_of_list_ascii. Qed.

Lemma chars_inj s t : chars s = chars t -> s = t.
Proof. intros E. rewrite <- (text_chars s), <- (text_chars t). now rewrite E. Qed.

(** ** Counting rule applications *)

Section Counting.

Context `{RE : ReModule}.

Lemma apply_rule_ok line n rule line' n' :
  apply_rule (line, n) rule = Ok (line', n') ->
  line' = rule_output rule line /\
  n' = n + (if bool_decide (line' <> line) then 1 else 0).
Proof.
  unfold apply_rule, rule_output. simpl.
  assert (E : (if callable (snd rule) then re_sub (fst rule) (snd rule) line
               else re_sub (fst rule) (snd rule) line)
              = re_sub (fst rule) (snd rule) line) by (destruct (callable _); reflexivity).
  rewrite E. destruct (re_sub _ _ line) as [s|e]; simpl; [|discriminate].
  case_bool_decide as N; intros [= <- <-].
  - split; [reflexivity|]. rewrite bool_decide_true by assumption. reflexivity.
  - subst s. split; [reflexivity|].
    rewrite bool_decide_false by tauto. lia.
Qed.

Lemma apply_rule_raise line n rule e :
  apply_rule (line, n) rule = Raise e -> rule_output rule line = line.
Proof.
  unfold apply_rule, rule_output. simpl.
  destruct (callable _); destruct (re_sub _ _ line); simpl;
    try reflexivity; case_bool_decide; discriminate.
Qed.

Lemma changed_applications_app r1 r2 line :
  changed_applications (r1 ++ r2) line
  = changed_applications r1 line + changed_applications r2 (final_line r1 line).
Proof.
  revert line. induction r1 as [|r r1 IH]; intros line; simpl; [reflexivity|].
  rewrite IH. unfold final_line. simpl. lia.
Qed.

Lemma final_line_app r1 r2 line :
  final_line (r1 ++ r2) line = final_line r2 (final_line r1 line).
Proof. unfold final_line. apply fold_left_app. Qed.

Lemma changed_applications_le rules line :
  changed_applications rules line <= length rules.
Proof.
  revert line. induction rules as [|r rules IH]; intros line; simpl; [lia|].
  specialize (IH (rule_output r line)). case_bool_decide; lia.
Qed.

Lemma context_loop_ok rules line n w out m w' :
  for_each context_step rules (line, n) w = (Ok (out, m), w') ->
  w' = w /\ out = final_line rules line /\ m = n + changed_applications rules line.
Proof.
  revert line n. induction rules as [|r rules IH]; intros line n; simpl.
  - unfold ret. intros [= <- <- <-]. unfold final_line. simpl. repeat split; lia.
  - unfold bind, context_step, lift.
    destruct (apply_rule (line, n) r) as [[l1 n1]|e] eqn:E; [|discriminate].
    intros H. apply IH in H as (-> & -> & ->).
    apply apply_rule_ok in E as [-> ->]. unfold final_line. simpl.
    repeat split. lia.
Qed.

Lemma general_loop_ok rules line n w out m w' :
  for_each general_step rules (line, n) w = (Ok (out, m), w') ->
  out = final_line rules line /\ m = n + changed_applications rules line.
Proof.
  revert line n w. induction rules as [|r rules IH]; intros line n w; simpl.
  - unfold ret. intros [= <- <- <-]. unfold final_line. simpl. split; [reflexivity|lia].
  - unfold bind, general_step.
    destruct (apply_rule (line, n) r) as [[l1 n1]|e] eqn:E.
    + unfold ret. intros H. apply IH in H as (-> & ->).
      apply apply_rule_ok in E as [-> ->]. unfold final_line. simpl. split; [reflexivity|lia].
    + apply apply_rule_raise in E.
      destruct e; unfold lift; try discriminate.
      unfold bind, print, ret. intros H. apply IH in H as (-> & ->).
      unfold final_line. simpl. rewrite E.
      rewrite bool_decide_false by tauto. split; [reflexivity|lia].
Qed.

Lemma process_line_count self line file_context w out n w' :
  process_line self line file_context w = (Ok (out, n), w') ->
  n = changed_applications (applied_rules self line file_context) line /\
  out = final_line (applied_rules self line file_context) line.
Proof.
  unfold process_line, applied_rules, bind, lift.
  destruct (should_preserve_line self line) as [[|]|e]; [| |discriminate].
  - unfold ret. intros [= <- <- <-]. split; reflexivity.
  - destruct (context_replacements self !! file_context) as [rules|]; simpl.
    + destruct (for_each context_step rules (line, 0) w) as [[[l1 n1]|e] w1] eqn:E;
        [|discriminate].
      apply context_loop_ok in E as (-> & -> & ->).
      intros H. apply general_loop_ok in H as [-> ->].
      rewrite changed_applications_app, final_line_app. split; [lia|reflexivity].
    + unfold ret. intros H. apply general_loop_ok in H as [-> ->]. split; [lia|reflexivity].
Qed.

End Counting.

(** ** Facts about the reference engine *)

Module EngineFacts.

Import Engine.

Lemma is_prefix_spec p s : is_prefix p s = true <-> exists post, s = (p ++ post)%list.
Proof.
  revert s. induction p as [|a p IH]; intros s; simpl.
  - split; [intros _; exists s; reflexivity|reflexivity].
  - destruct s as [|b s].
    + split; [discriminate|intros [post E]; discriminate].
    + rewrite andb_true_iff, IH, Ascii.eqb_eq. split.
      * intros [-> [post ->]]. exists post. reflexivity.
      * intros [post [= -> ->]]. split; [reflexivity|exists post; reflexivity].
Qed.

Lemma has_infix_spec p s : has_infix p s = true <-> occurs p s.
Proof.
  induction s as [|b s IH].
  - simpl. rewrite orb_false_r, is_prefix_spec. split.
    + intros [post E]. exists [], post. exact E.
    + intros (pre & post & E). destruct pre; [|discriminate]. exists post. exact E.
  - cbn [has_infix]. rewrite orb_true_iff, IH, is_prefix_spec. split.
    + intros [[post E]|(pre & post & E)].
      * exists [], post. exact E.
      * exists (b :: pre), post. rewrite E. reflexivity.
    + intros (pre & post & E). destruct pre as [|c pre].
      * left. exists post. exact E.
      * right. injection E as _ E. exists pre, post. exact E.
Qed.

Lemma occurs_suffix w l1 l2 : occurs w l2 -> l2 `suffix_of` l1 -> occurs w l1.
Proof.
  intros (pre & post & ->) [k ->]. exists (k ++ pre)%list, post.
  now rewrite <- app_assoc.
Qed.

Lemma occurs_tail w c l : occurs w l -> occurs w (c :: l).
Proof. intros H. apply (occurs_suffix w _ l H). exists [c]. reflexivity. Qed.

(** Whatever [rep_match] and [rmatch] answer is an answer of the
    continuation, at a position further on in the subject. *)
Lemma rep_match_cont greedy s lo hi prev rest caps k res :
  rep_match greedy s lo hi prev rest caps k = Some res ->
  exists st', k st' = Some res /\ m_rest st' `suffix_of` rest.
Proof.
  revert lo hi prev. induction rest as [|c tl IH]; intros lo hi prev; cbn [rep_match].
  - destruct lo; [|destruct greedy; discriminate].
    destruct (k (MState prev [] caps)) eqn:E; [|destruct greedy; discriminate].
    intros H. exists (MState prev [] caps). split; [|reflexivity].
    rewrite E. destruct greedy; exact H.
  - assert (Hmore : forall lo' hi',
        (if cset_mem s c && can_more hi
         then rep_match greedy s lo' hi' (Some c) tl caps k else None) = Some res ->
        exists st', k st' = Some res /\ m_rest st' `suffix_of` (c :: tl)).
    { intros lo' hi'. destruct (cset_mem s c && can_more hi); [|discriminate].
      intros H. apply IH in H as (st' & Hk & Hs). exists st'. split; [exact Hk|].
      now apply suffix_cons_r. }
    assert (Hstop : match lo with O => k (MState prev (c :: tl) caps) | S _ => None end
                    = Some res ->
                    exists st', k st' = Some res /\ m_rest st' `suffix_of` (c :: tl)).
    { destruct lo; [|discriminate]. intros H.
      exists (MState prev (c :: tl) caps). split; [exact H|reflexivity]. }
    destruct greedy.
    + destruct (if cset_mem s c && can_more hi then _ else None) eqn:E.
      * intros [= <-]. now apply (Hmore _ _ E).
      * exact Hstop.
    + destruct (match lo with O => _ | S _ => None end) eqn:E.
      * intros [= <-]. now apply Hstop.
      * apply Hmore.
Qed.

Lemma rmatch_cont r st k res :
  rmatch r st k = Some res ->
  exists st', k st' = Some res /\ m_rest st' `suffix_of` m_rest st.
Proof.
  revert st k res.
  induction r as [|s|s lo hi g| | | |r1 IH1 r2 IH2|r1 IH1 r2 IH2|i r IH|neg r IH];
    intros st k res; cbn [rmatch].
  - intros H. exists st. split; [exact H|reflexivity].
  - destruct (m_rest st) as [|c tl] eqn:E; [discriminate|].
    destruct (cset_mem s c); [|discriminate]. intros H.
    eexists. split; [exact H|]. simpl. now apply suffix_cons_r.
  - apply rep_match_cont.
  - destruct (m_prev st); [discriminate|]. intros H. exists st. split; [exact H|reflexivity].
  - destruct (at_end _); [|discriminate]. intros H. exists st. split; [exact H|reflexivity].
  - destruct (at_boundary _); [|discriminate]. intros H. exists st. split; [exact H|reflexivity].
  - intros H. apply IH1 in H as (st1 & H & S1). apply IH2 in H as (st2 & H & S2).
    exists st2. split; [exact H|]. now transitivity (m_rest st1).
  - destruct (rmatch r1 st k) eqn:E.
    + intros [= <-]. now apply IH1.
    + apply IH2.
  - intros H. apply IH in H as (st1 & H & S1). eexists. split; [exact H|exact S1].
  - destruct (rmatch r st Some) as [st1|]; destruct neg; try discriminate;
      intros H; eexists; (split; [exact H|reflexivity]).
Qed.

Lemma starts_with_sound r w st k res :
  starts_with r w = true -> rmatch r st k = Some res -> w `prefix_of` m_rest st.
Proof.
  revert w st k res.
  induction r as [|s|s lo hi g| | | |r1 IH1 r2 IH2|r1 IH1 r2 IH2|i r IH|neg r IH];
    intros w st k res; destruct w as [|c w]; try (intros _ _; apply prefix_nil);
    cbn [starts_with]; try discriminate.
  - destruct s; try discriminate. rewrite andb_true_iff, Ascii.eqb_eq.
    intros [-> Hw]. destruct w; [|discriminate]. cbn [rmatch].
    destruct (m_rest st) as [|c' tl]; [discriminate|]. simpl.
    destruct (Ascii.eqb c c') eqn:E; [|discriminate]. apply Ascii.eqb_eq in E as <-.
    intros _. exists tl. reflexivity.
  - destruct r1 as [|s| | | | | | | |]; try discriminate.
    destruct s; try discriminate. rewrite andb_true_iff, Ascii.eqb_eq.
    intros [-> Hw]. cbn [rmatch].
    destruct (m_rest st) as [|c' tl]; [discriminate|]. simpl.
    destruct (Ascii.eqb c c') eqn:E; [|discriminate]. apply Ascii.eqb_eq in E as <-.
    intros H. apply (IH2 _ _ _ _ Hw) in H. simpl in H. now apply prefix_cons.
  - intros Hw. cbn [rmatch]. apply IH. exact Hw.
Qed.

Lemma prefix_occurs w l : w `prefix_of` l -> occurs w l.
Proof. intros [post ->]. exists [], post. reflexivity. Qed.

Lemma requires_sound w r st k res :
  requires w r = true -> rmatch r st k = Some res -> occurs w (m_rest st).
Proof.
  revert st k res.
  induction r as [|s|s lo hi g| | | |r1 IH1 r2 IH2|r1 IH1 r2 IH2|i r IH|neg r IH];
    intros st k res; cbn [requires]; rewrite orb_true_iff;
    (intros [Hs|Hr]; [intros H; apply prefix_occurs; exact (starts_with_sound _ _ _ _ _ Hs H)|]);
    try discriminate.
  - cbn [rmatch]. apply orb_true_iff in Hr as [Hr|Hr].
    + apply IH1. exact Hr.
    + intros H. apply rmatch_cont in H as (st1 & H & S1).
      apply (occurs_suffix _ _ (m_rest st1)); [|exact S1]. exact (IH2 _ _ _ Hr H).
  - cbn [rmatch]. apply andb_true_iff in Hr as [H1 H2].
    destruct (rmatch r1 st k) eqn:E.
    + intros _. exact (IH1 _ _ _ H1 E).
    + apply IH2. exact H2.
  - cbn [rmatch]. apply IH. exact Hr.
Qed.

(** A pattern that requires [w] finds nothing in a text without [w],
    and [re.sub] returns such a text as it is. *)
Lemma match_here_none w r prev rest b :
  requires w r = true -> ~ occurs w rest -> match_here r prev rest b = None.
Proof.
  intros Hr Hn. unfold match_here.
  destruct (rmatch r _ _) eqn:E; [|reflexivity].
  exfalso. apply Hn. exact (requires_sound _ _ _ _ _ Hr E).
Qed.

Lemma search_go_none w r prev rest :
  requires w r = true -> ~ occurs w rest -> search_go r prev rest = None.
Proof.
  intros Hr. revert prev. induction rest as [|c tl IH]; intros prev Hn; cbn [search_go];
    rewrite (match_here_none w) by assumption; [reflexivity|].
  apply IH. intros H. apply Hn. now apply occurs_tail.
Qed.

Lemma sub_go_same w r repl prev rest :
  requires w r = true -> ~ occurs w rest -> sub_go r repl prev rest 0 = rest.
Proof.
  intros Hr. revert prev. induction rest as [|c tl IH]; intros prev Hn; cbn [sub_go];
    rewrite (match_here_none w) by assumption; [reflexivity|].
  f_equal. apply IH. intros H. apply Hn. now apply occurs_tail.
Qed.

End EngineFacts.

(** ** The built-in tables under the reference engine *)

Module BuiltinFacts.

Import Builtin.

Lemma general_rules_split : general_rules = (working_rules ++ [as_any_rule])%list.
Proof. reflexivity. Qed.

Lemma as_any_malformed : re_compile (fst as_any_rule) = Raise as_any_error.
Proof. vm_compute. reflexivity. Qed.

Lemma working_rules_sound : forallb rule_sound working_rules = true.
Proof. vm_compute. reflexivity. Qed.

Lemma context_rules_sound :
  forallb rule_sound
    (validator_rules ++ error_handler_rules ++ api_response_rules ++ test_file_rules) = true.
Proof. vm_compute. reflexivity. Qed.

Lemma preserve_patterns_compile :
  forallb (fun p => match re_compile p with Ok _ => true | Raise _ => false end)
          builtin_preserve = true.
Proof. vm_compute. reflexivity. Qed.

Lemma forallb_elem {A} (f : A -> bool) l x : forallb f l = true -> x ∈ l -> f x = true.
Proof.
  intros H Hx. apply list_elem_of_In in Hx. rewrite forallb_forall in H. now apply H.
Qed.

Lemma working_rule_sound rule : rule ∈ working_rules -> rule_sound rule = true.
Proof. apply forallb_elem, working_rules_sound. Qed.

Lemma context_rule_sound d file_context rules rule :
  context_replacements (init d) !! file_context = Some rules ->
  rule ∈ rules -> rule_sound rule = true.
Proof.
  intros L Hr. apply (forallb_elem _ _ _ context_rules_sound).
  unfold init in L. cbn [context_replacements] in L.
  repeat (rewrite lookup_insert in L; case_decide;
          [injection L as <-; rewrite !elem_of_app; tauto|]).
  rewrite lookup_empty in L. discriminate.
Qed.

Lemma valid_sub rule line :
  rule_valid rule = true -> exists s, re_sub (fst rule) (snd rule) line = Ok s.
Proof.
  unfold rule_valid. cbn [re_sub sre]. unfold sre_sub.
  destruct (re_compile (fst rule)) as [c|]; [|discriminate]. cbn [rbind].
  destruct (sre_filter (snd c) (snd rule)); [|discriminate]. intros _. eexists. reflexivity.
Qed.

Lemma valid_apply rule acc :
  rule_valid rule = true -> exists acc', apply_rule acc rule = Ok acc'.
Proof.
  intros V. unfold apply_rule.
  destruct (valid_sub rule (fst acc) V) as [s E].
  destruct (callable (snd rule)); rewrite E; cbn [rbind]; case_bool_decide; eexists; reflexivity.
Qed.

Lemma sound_sub rule line :
  rule_sound rule = true -> ~ Engine.occurs any (chars line) ->
  re_sub (fst rule) (snd rule) line = Ok line.
Proof.
  unfold rule_sound, rule_valid, rule_needs_any. cbn [re_sub sre]. unfold sre_sub.
  destruct (re_compile (fst rule)) as [c|]; [|discriminate]. cbn [rbind].
  destruct (sre_filter (snd c) (snd rule)); [|discriminate]. cbn [rbind andb].
  intros R N. rewrite (EngineFacts.sub_go_same any) by assumption. now rewrite text_chars.
Qed.

Lemma sound_apply rule line n :
  rule_sound rule = true -> ~ Engine.occurs any (chars line) ->
  apply_rule (line, n) rule = Ok (line, n).
Proof.
  intros S N. unfold apply_rule. cbn [fst snd].
  destruct (callable (snd rule)); rewrite (sound_sub _ _ S N); cbn [rbind];
    rewrite bool_decide_false by tauto; reflexivity.
Qed.

Lemma as_any_apply acc : apply_rule acc as_any_rule = Raise as_any_error.
Proof.
  unfold apply_rule. cbn [callable as_any_rule snd fst re_sub sre]. unfold sre_sub.
  change (re_compile "as any(?=\s*[;,.\)]))") with (re_compile (fst as_any_rule)).
  rewrite as_any_malformed. reflexivity.
Qed.

Lemma for_each_app {A S} (body : S -> A -> M S) l1 l2 s w :
  for_each body (l1 ++ l2) s w = (s' <- for_each body l1 s ;; for_each body l2 s') w.
Proof.
  revert s w. induction l1 as [|x l1 IH]; intros s w; cbn [for_each app].
  - reflexivity.
  - unfold bind in *. destruct (body s x w) as [[s1|e] w1]; [|reflexivity].
    apply IH.
Qed.

Lemma context_loop_valid rules acc w :
  (forall rule, rule ∈ rules -> rule_valid rule = true) ->
  exists acc', for_each context_step rules acc w = (Ok acc', w).
Proof.
  revert acc. induction rules as [|r rules IH]; intros acc V; cbn [for_each].
  - eexists. reflexivity.
  - destruct (valid_apply r acc) as [acc1 E]; [apply V; left|].
    unfold bind, context_step, lift. rewrite E. apply IH.
    intros rule Hr. apply V. now right.
Qed.

Lemma general_loop_valid rules acc w :
  (forall rule, rule ∈ rules -> rule_valid rule = true) ->
  exists acc', for_each general_step rules acc w = (Ok acc', w).
Proof.
  revert acc. induction rules as [|r rules IH]; intros acc V; cbn [for_each].
  - eexists. reflexivity.
  - destruct (valid_apply r acc) as [acc1 E]; [apply V; left|].
    unfold bind, general_step. rewrite E. unfold ret. apply IH.
    intros rule Hr. apply V. now right.
Qed.

Lemma context_loop_inert rules line n w :
  (forall rule, rule ∈ rules -> rule_sound rule = true) ->
  ~ Engine.occurs any (chars line) ->
  for_each context_step rules (line, n) w = (Ok (line, n), w).
Proof.
  intros V N. induction rules as [|r rules IH]; cbn [for_each]; [reflexivity|].
  unfold bind, context_step, lift. rewrite sound_apply by (try apply V; try left; assumption).
  apply IH. intros rule Hr. apply V. now right.
Qed.

Lemma general_loop_inert rules line n w :
  (forall rule, rule ∈ rules -> rule_sound rule = true) ->
  ~ Engine.occurs any (chars line) ->
  for_each general_step rules (line, n) w = (Ok (line, n), w).
Proof.
  intros V N. induction rules as [|r rules IH]; cbn [for_each]; [reflexivity|].
  unfold bind, general_step. rewrite sound_apply by (try apply V; try left; assumption).
  unfold ret. apply IH. intros rule Hr. apply V. now right.
Qed.

Lemma sound_valid rule : rule_sound rule = true -> rule_valid rule = true.
Proof. unfold rule_sound. now intros [V _]%andb_true_iff. Qed.

(** The general loop over the built-in table: the fifteen working rules,
    then the warning of the last one. *)
Lemma general_loop_builtin acc w :
  exists acc', for_each general_step general_rules acc w = (Ok acc', warn w).
Proof.
  rewrite general_rules_split, for_each_app. unfold bind at 1.
  destruct (general_loop_valid working_rules acc w) as [acc1 ->].
  { intros rule Hr. apply sound_valid, working_rule_sound, Hr. }
  exists acc1. cbn [for_each]. unfold bind, general_step. rewrite as_any_apply.
  reflexivity.
Qed.

Lemma general_loop_builtin_inert line n w :
  ~ Engine.occurs any (chars line) ->
  for_each general_step general_rules (line, n) w = (Ok (line, n), warn w).
Proof.
  intros N. rewrite general_rules_split, for_each_app. unfold bind at 1.
  rewrite general_loop_inert by (try apply working_rule_sound; assumption).
  cbn [for_each]. unfold bind, general_step. rewrite as_any_apply. reflexivity.
Qed.

End BuiltinFacts.

(** ** Preserved lines *)

Lemma should_preserve_line_any `{RE : ReModule} self line :
  should_preserve_line self line = any_search (preserve_patterns self) line.
Proof.
  unfold should_preserve_line. induction (preserve_patterns self) as [|p ps IH]; simpl.
  - reflexivity.
  - destruct (re_search p line) as [[m|]|e]; simpl; auto.
Qed.

Lemma should_exclude_file_any `{RE : ReModule} self file_path :
  should_exclude_file self file_path = any_search (exclude_patterns self) file_path.
Proof.
  unfold should_exclude_file. induction (exclude_patterns self) as [|p ps IH]; simpl.
  - reflexivity.
  - destruct (re_search p file_path) as [[m|]|e]; simpl; auto.
Qed.

Lemma any_search_total `{RE : ReModule} patterns s :
  (forall p, p ∈ patterns -> exists m, re_search p s = Ok m) ->
  exists b, any_search patterns s = Ok b /\
            (b = true <-> exists p m, p ∈ patterns /\ re_search p s = Ok (Some m)).
Proof.
  induction patterns as [|p ps IH]; intros T; simpl.
  - exists false. split; [reflexivity|]. split; [discriminate|].
    intros (p & m & Hp & _). inversion Hp.
  - destruct (T p) as [m E]; [left|]. rewrite E. simpl. destruct m as [m|].
    + exists true. split; [reflexivity|]. split; [|reflexivity].
      intros _. exists p, m. split; [left|exact E].
    + destruct IH as (b & Eb & Hb). { intros q Hq. apply T. now right. }
      exists b. split; [exact Eb|]. rewrite Hb. split.
      * intros (q & m & Hq & Em). exists q, m. split; [now right|exact Em].
      * intros (q & m & Hq & Em). apply elem_of_cons in Hq as [-> |Hq].
        -- rewrite E in Em. discriminate.
        -- exists q, m. split; assumption.
Qed.

Lemma process_line_preserved `{RE : ReModule} self line file_context w :
  should_preserve_line self line = Ok true ->
  process_line self line file_context w = (Ok (line, 0), w).
Proof. intros P. unfold process_line, bind, lift. rewrite P. reflexivity. Qed.

Lemma builtin_preserve_total d line :
  exists b, should_preserve_line (init d) line = Ok b /\
            (b = true <-> exists p m, p ∈ preserve_patterns (init d)
                                      /\ re_search p line = Ok (Some m)).
Proof.
  rewrite should_preserve_line_any. apply any_search_total.
  intros p Hp. cbn [re_search sre]. unfold sre_search.
  pose proof (BuiltinFacts.forallb_elem _ _ _ BuiltinFacts.preserve_patterns_compile Hp) as C.
  cbn beta in C. destruct (re_compile p); [|discriminate]. eexists. reflexivity.
Qed.

(** C1. Under the built-in tables, a line that matches at least one
    preserve pattern comes back from [process_line] unchanged, with a
    change count of 0 and nothing printed, whatever the context label and
    whatever rules would match the line. *)
Theorem C1_preserved_line_unchanged (d : bool) (line file_context : string) (w : World) :
  (exists pattern m, pattern ∈ preserve_patterns (init d)
                     /\ re_search pattern line = Ok (Some m)) ->
  process_line (init d) line file_context w = (Ok (line, 0), w).
Proof.
  intros H. apply process_line_preserved.
  destruct (builtin_preserve_total d line) as (b & E & Hb).
  apply Hb in H. now subst b.
Qed.

(** The line of the witness is one that the rule [: any\s*=] rewrites
    when no preserve pattern stands in the way. *)
Lemma C1_witness :
  process_line (init false)
    "const x: any = f(); // eslint-disable-line no-explicit-any" "general" empty_world
  = (Ok ("const x: any = f(); // eslint-disable-line no-explicit-any", 0), empty_world).
Proof.
  apply C1_preserved_line_unchanged.
  exists "// eslint-disable.*any".
  eexists. split; [vm_compute; set_solver|vm_compute; reflexivity].
Defined.

Example preserved_line_would_be_rewritten :
  fst (process_line (without_preserve (init false))
         "const x: any = f(); // eslint-disable-line no-explicit-any" "general" empty_world)
  = Ok ("const x: unknown = f(); // eslint-disable-line no-explicit-any", 1).
Proof. vm_compute. reflexivity. Qed.

(** ** Malformed patterns *)

(** In the loop over the general rules a [re.error] is reported and the
    loop goes on: the step leaves the line and the count as they are. *)
Lemma general_step_recovers `{RE : ReModule} acc rule msg w :
  apply_rule acc rule = Raise (re_error msg) ->
  general_step acc rule w
  = (Ok acc, MkWorld (w_files w) (w_dirs w)
                     (w_out w ++ [regex_warning (fst rule) (re_error msg)]) (w_sigint w)).
Proof. intros E. unfold general_step. rewrite E. reflexivity. Qed.

(** In the loop over the context rules the same error leaves
    [process_line]. *)
Lemma context_step_raises `{RE : ReModule} acc rule e w :
  apply_rule acc rule = Raise e -> context_step acc rule w = (Raise e, w).
Proof. intros E. unfold context_step, lift. rewrite E. reflexivity. Qed.


(** ** Idempotence *)


Example second_pass_rewrites_again :
  fst (process_line (init false) "(a: unknown) => unknownb: any) => anyd" "general"
         empty_world)
  = Ok ("(a: unknown) => unknownb: unknown) => unknownd", 1).
Proof. vm_compute. reflexivity. Qed.

Lemma process_line_without_any d line file_context w :
  str_in "any" line = false ->
  fst (process_line (init d) line file_context w) = Ok (line, 0).
Proof.
  intros N.
  assert (N' : ~ Engine.occurs Builtin.any (chars line)).
  { intros O. apply EngineFacts.has_infix_spec in O. unfold str_in in N.
    fold Builtin.any in N. congruence. }
  destruct (builtin_preserve_total d line) as (b & E & _).
  unfold process_line, bind, lift. rewrite E. destruct b; [reflexivity|].
  destruct (context_replacements (init d) !! file_context) as [rules|] eqn:L.
  - rewrite BuiltinFacts.context_loop_inert; [|intros r Hr; exact (BuiltinFacts.context_rule_sound _ _ _ _ L Hr)|exact N'].
    cbn [replacements init]. now rewrite BuiltinFacts.general_loop_builtin_inert.
  - unfold ret. cbn [replacements init]. now rewrite BuiltinFacts.general_loop_builtin_inert.
Qed.



(** C4. The change count of [process_line] is the number of rule
    applications whose substitution changed the text, one per rule however
    many spans the rule rewrote; the line [const x: any = foo();] in the
    general context becomes [const x: unknown = foo();] with a count of
    exactly 1, and a rule that rewrites two spans counts once. *)
Theorem C4_change_count :
  (forall (RE : ReModule) (self : TypeScriptAnyReplacer) (line file_context : string)
          (w : World) (out : string) (n : nat) (w' : World),
      process_line self line file_context w = (Ok (out, n), w') ->
      n = changed_applications (applied_rules self line file_context) line
      /\ out = final_line (applied_rules self line file_context) line
      /\ n <= length (applied_rules self line file_context))
  /\ (forall (d : bool) (w : World),
        fst (process_line (init d) "const x: any = foo();" "general" w)
        = Ok ("const x: unknown = foo();", 1))
  /\ (forall (d : bool) (w : World),
        fst (process_line (init d) "a: any[], b: any[]" "general" w)
        = Ok ("a: unknown[], b: unknown[]", 1)).
Proof.
  split; [|split].
  - intros RE self line file_context w out n w' H.
    apply process_line_count in H as [-> ->].
    repeat split. apply changed_applications_le.
  - intros d w. vm_compute. reflexivity.
  - intros d w. vm_compute. reflexivity.
Qed.

Lemma C4_witness :
  2 = changed_applications
        (applied_rules (init false) "catch (e: any) { error: any }" "error_handler")
        "catch (e: any) { error: any }"
  /\ "catch (e: unknown) { error: unknown }"
     = final_line (applied_rules (init false) "catch (e: any) { error: any }" "error_handler")
         "catch (e: any) { error: any }"
  /\ 2 <= length (applied_rules (init false) "catch (e: any) { error: any }" "error_handler").
Proof.
  apply (proj1 C4_change_count sre (init false) "catch (e: any) { error: any }"
           "error_handler" empty_world "catch (e: unknown) { error: unknown }" 2
           (Builtin.warn empty_world)).
  vm_compute. reflexivity.
Defined.

(** ** The rule for type assertions *)

Lemma process_line_with_replacements `{RE : ReModule} self rules line file_context :
  process_line (with_replacements self rules) line file_context
  = (preserve <- lift (should_preserve_line self line) ;;
     if preserve then ret (line, 0)
     else
       acc <- match context_replacements self !! file_context with
              | Some rs => for_each context_step rs (line, 0)
              | None => ret (line, 0)
              end ;;
       for_each general_step rules acc).
Proof. reflexivity. Qed.

Lemma process_line_builtin d line file_context w :
  should_preserve_line (init d) line = Ok false ->
  exists out n,
    process_line (init d) line file_context w = (Ok (out, n), Builtin.warn w)
    /\ process_line (with_replacements (init d) Builtin.working_rules) line file_context w
       = (Ok (out, n), w).
Proof.
  intros P. rewrite process_line_with_replacements.
  unfold process_line, bind, lift. rewrite P.
  change (replacements (init d)) with general_rules.
  assert (C : exists acc,
             match context_replacements (init d) !! file_context with
             | Some rules => for_each context_step rules (line, 0)
             | None => ret (line, 0)
             end w = (Ok acc, w)).
  { destruct (context_replacements (init d) !! file_context) as [rules|] eqn:L.
    - apply BuiltinFacts.context_loop_valid. intros r Hr.
      apply BuiltinFacts.sound_valid. exact (BuiltinFacts.context_rule_sound _ _ _ _ L Hr).
    - eexists. reflexivity. }
  destruct C as [acc ->].
  rewrite BuiltinFacts.general_rules_split, BuiltinFacts.for_each_app. unfold bind.
  destruct (BuiltinFacts.general_loop_valid Builtin.working_rules acc w) as [[out n] ->].
  { intros r Hr. apply BuiltinFacts.sound_valid, BuiltinFacts.working_rule_sound, Hr. }
  exists out, n. split; [|reflexivity].
  cbn [for_each]. unfold bind, general_step. rewrite BuiltinFacts.as_any_apply. reflexivity.
Qed.

(** C10, as stated, fails in its last part: a rule with a callable
    replacement rewrites every [any] inside its match, and that can be the
    [any] of a type assertion. *)
Lemma C10_as_any_rewritten_by_another_rule :
  ~ (forall (line file_context : string) (w : World) (out : string) (n : nat)
            (pre post : string),
       fst (process_line (init false) line file_context w) = Ok (out, n) ->
       line = pre +:+ "as any" +:+ post ->
       ~ exists post', out = pre +:+ "as unknown" +:+ post').
Proof.
  intros H.
  apply (H "expect(fn(x as any, y: any)).toBe(1);" "test_file" empty_world
           "expect(fn(x as unknown, y: unknown)).toBe(1);" 1
           "expect(fn(x " ", y: any)).toBe(1);").
  - vm_compute. reflexivity.
  - reflexivity.
  - exists ", y: unknown)).toBe(1);". reflexivity.
Qed.

(** C10, amended.  The pattern of the last general rule does not compile
    (unbalanced parenthesis at position 20).  On every line that is not
    preserved the general loop catches that one error and prints one
    warning, and the rule itself rewrites nothing: line and count are
    those of the table without it.  A line whose only [any] is a type
    assertion is returned as it is. *)
Theorem C10_as_any_rule_never_applies :
  re_compile "as any(?=\s*[;,.\)]))"
  = Raise (re_error "unbalanced parenthesis at position 20")
  /\ (forall (d : bool) (line file_context : string) (w : World),
        should_preserve_line (init d) line = Ok false ->
        exists out n,
          process_line (init d) line file_context w
          = (Ok (out, n),
             MkWorld (w_files w) (w_dirs w)
               (w_out w ++ ["Warning: Regex error with pattern 'as any(?=\s*[;,.\)]))': unbalanced parenthesis at position 20"])
               (w_sigint w))
          /\ process_line (with_replacements (init d) (removelast general_rules))
               line file_context w
             = (Ok (out, n), w))
  /\ (forall (d : bool) (w : World),
        fst (process_line (init d) "foo(x as any);" "general" w) = Ok ("foo(x as any);", 0)).
Proof.
  split; [|split].
  - exact BuiltinFacts.as_any_malformed.
  - intros d line file_context w P. exact (process_line_builtin d line file_context w P).
  - intros d w. vm_compute. reflexivity.
Qed.

Lemma C10_witness :
  exists out n,
    process_line (init false) "return (value as any).id;" "general" empty_world
    = (Ok (out, n),
       MkWorld ∅ ∅
         ["Warning: Regex error with pattern 'as any(?=\s*[;,.\)]))': unbalanced parenthesis at position 20"]
         None)
    /\ process_line (with_replacements (init false) (removelast general_rules))
         "return (value as any).id;" "general" empty_world
       = (Ok (out, n), empty_world).
Proof.
  apply (proj1 (proj2 C10_as_any_rule_never_applies) false "return (value as any).id;"
           "general" empty_world).
  vm_compute. reflexivity.
Defined.

(** ** Context classification *)

Lemma occurs_map (f : ascii -> ascii) w l :
  Engine.occurs w (map f l) <->
  exists pre mid post, l = (pre ++ mid ++ post)%list /\ map f mid = w.
Proof.
  split.
  - intros (a & b & E). apply map_eq_app in E as (l1 & l2 & -> & <- & E).
    apply map_eq_app in E as (l3 & l4 & -> & <- & <-).
    exists l1, l3, l4. split; reflexivity.
  - intros (pre & mid & post & -> & <-). exists (map f pre), (map f post).
    now rewrite !map_app.
Qed.

Lemma ci_contains_lower needle path :
  ci_contains needle path <-> str_in needle (lower path) = true.
Proof.
  unfold str_in, lower, ci_contains. rewrite chars_text, EngineFacts.has_infix_spec, occurs_map.
  reflexivity.
Qed.

(** C8. [get_file_context] assigns to every path exactly one of the five
    labels, by the first test that succeeds, each test a case-insensitive
    substring test: test or spec, then validator or validation, then api
    together with client or response, then error or exception, and
    general otherwise. *)
Theorem C8_context_classification (file_path : string) :
  let has := fun needle => ci_contains needle file_path in
  let T := has "test" \/ has "spec" in
  let V := has "validator" \/ has "validation" in
  let A := has "api" /\ (has "client" \/ has "response") in
  let E := has "error" \/ has "exception" in
  (T -> get_file_context file_path = "test_file")
  /\ (~ T -> V -> get_file_context file_path = "validator")
  /\ (~ T -> ~ V -> A -> get_file_context file_path = "api_response")
  /\ (~ T -> ~ V -> ~ A -> E -> get_file_context file_path = "error_handler")
  /\ (~ T -> ~ V -> ~ A -> ~ E -> get_file_context file_path = "general")
  /\ get_file_context file_path
     ∈ ["test_file"; "validator"; "api_response"; "error_handler"; "general"].
Proof.
  cbv zeta. rewrite !ci_contains_lower.
  rewrite <- !orb_true_iff, <- andb_true_iff. unfold get_file_context. cbv zeta.
  destruct (str_in "test" _ || str_in "spec" _);
    [|destruct (str_in "validator" _ || str_in "validation" _);
      [|destruct (str_in "api" _ && (str_in "client" _ || str_in "response" _));
        [|destruct (str_in "error" _ || str_in "exception" _)]]];
    (repeat split; try (intros; first [reflexivity | exfalso; congruence]));
    repeat first [apply list_elem_of_here | apply list_elem_of_further].
Qed.

Ltac ci_yes := apply ci_contains_lower; vm_compute; reflexivity.

Ltac ci_no :=
  let H := fresh "H" in
  intros H; rewrite !ci_contains_lower in H; vm_compute in H; intuition discriminate.

Lemma C8_witness :
  get_file_context "src/Foo.SPEC.ts" = "test_file"
  /\ get_file_context "src/Validation/rules.ts" = "validator"
  /\ get_file_context "src/API/Client.ts" = "api_response"
  /\ get_file_context "src/lib/Errors.ts" = "error_handler"
  /\ get_file_context "src/main.ts" = "general".
Proof.
  split; [|split; [|split; [|split]]].
  - apply (proj1 (C8_context_classification "src/Foo.SPEC.ts")). right. ci_yes.
  - apply (proj1 (proj2 (C8_context_classification "src/Validation/rules.ts"))).
    + ci_no.
    + right. ci_yes.
  - apply (proj1 (proj2 (proj2 (C8_context_classification "src/API/Client.ts")))).
    + ci_no.
    + ci_no.
    + split; [ci_yes|left; ci_yes].
  - apply (proj1 (proj2 (proj2 (proj2 (C8_context_classification "src/lib/Errors.ts"))))).
    + ci_no.
    + ci_no.
    + ci_no.
    + left. ci_yes.
  - apply (proj1 (proj2 (proj2 (proj2 (proj2 (C8_context_classification "src/main.ts")))))).
    + ci_no.
    + ci_no.
    + ci_no.
    + ci_no.
Defined.

(** ** What the methods leave unchanged *)

Lemma tree_induction (P : tree -> Prop) :
  (forall files dirs, Forall (fun nt => P (snd nt)) dirs -> P (Node files dirs)) ->
  forall t, P t.
Proof.
  intros H. fix IH 1. intros [files dirs]. apply H.
  induction dirs as [|[n t] dirs IHd]; constructor; [apply IH|apply IHd].
Qed.

Section Keeps.

Variable P : World -> World -> Prop.

Hypothesis P_refl : forall w, P w w.

Hypothesis P_trans : forall a b c, P a b -> P b c -> P a c.

Lemma keeps_ret {A} (a : A) : keeps P (ret a).
Proof. intros w. apply P_refl. Qed.

Lemma keeps_lift {A} (r : Result A) : keeps P (lift r).
Proof. intros w. apply P_refl. Qed.

Lemma keeps_bind {A B} (m : M A) (k : A -> M B) :
  keeps P m -> (forall a, keeps P (k a)) -> keeps P (bind m k).
Proof.
  intros Hm Hk w. unfold bind. specialize (Hm w).
  destruct (m w) as [[a|e] w1]; simpl in *; [|exact Hm].
  exact (P_trans _ _ _ Hm (Hk a w1)).
Qed.

Lemma keeps_for_each {A S} (body : S -> A -> M S) l s :
  (forall s x, keeps P (body s x)) -> keeps P (for_each body l s).
Proof.
  intros Hb. revert s. induction l as [|x l IH]; intros s; cbn [for_each].
  - apply keeps_ret.
  - apply keeps_bind; [apply Hb|exact IH].
Qed.

Lemma keeps_descend {S} (walk : string -> tree -> S -> M S) top l d s :
  Forall (fun nt => forall top' s', keeps P (walk top' (snd nt) s')) l ->
  keeps P (descend_into walk top l d s).
Proof.
  induction 1 as [|[n t] l Ht _ IH]; cbn [descend_into].
  - apply keeps_ret.
  - destruct (String.eqb n d); [apply Ht|exact IH].
Qed.

Lemma keeps_os_walk {S} (body : string -> list string -> list string -> S -> M (list string * S)) :
  (forall top dirs files s, keeps P (body top dirs files s)) ->
  forall t top s, keeps P (os_walk body top t s).
Proof.
  intros Hb. induction t as [files dirs IH] using tree_induction. intros top s.
  cbn [os_walk]. apply keeps_bind; [apply Hb|]. intros r.
  apply keeps_for_each. intros s' d. apply keeps_descend. exact IH.
Qed.

End Keeps.

Lemma same_world_refl w : same_world w w.
Proof. reflexivity. Qed.

Lemma same_world_trans a b c : same_world a b -> same_world b c -> same_world a c.
Proof. unfold same_world. congruence. Qed.

Lemma same_disk_refl w : same_disk w w.
Proof. split; reflexivity. Qed.

Lemma same_disk_trans a b c : same_disk a b -> same_disk b c -> same_disk a c.
Proof. unfold same_disk. intros [-> ->] [-> ->]. split; reflexivity. Qed.

Lemma keeps_print s : keeps same_disk (print s).
Proof. intros w. split; reflexivity. Qed.

Section Frames.

Context `{RE : ReModule}.

Lemma keeps_process_line self line file_context :
  keeps same_disk (process_line self line file_context).
Proof.
  pose proof same_disk_refl as R. pose proof same_disk_trans as T.
  unfold process_line. apply keeps_bind; auto using keeps_lift. intros [|].
  - now apply keeps_ret.
  - apply keeps_bind; auto.
    + destruct (_ !! _); [|now apply keeps_ret].
      apply keeps_for_each; auto using keeps_lift.
    + intros acc. apply keeps_for_each; auto. intros acc' rule. unfold general_step.
      destruct (apply_rule acc' rule) as [?|[]]; auto using keeps_ret, keeps_lift.
Qed.

Lemma keeps_transform self file_context lines :
  keeps same_disk (transform self file_context lines).
Proof.
  pose proof same_disk_refl as R. pose proof same_disk_trans as T.
  unfold transform. apply keeps_for_each; auto. intros acc line. unfold line_step.
  apply keeps_bind; auto using keeps_process_line. intros r.
  apply keeps_bind; auto using keeps_ret.
  destruct (_ && _); auto using keeps_print, keeps_ret.
Qed.

Lemma keeps_read_lines path : keeps same_disk (read_lines path).
Proof.
  intros w. unfold read_lines.
  destruct (w_sigint w) as [[|n]|]; try (split; reflexivity);
    destruct (w_files w !! path) as [[]|]; split; reflexivity.
Qed.

Lemma keeps_try_read path : keeps same_disk (try_read path).
Proof.
  intros w. unfold try_read. pose proof (keeps_read_lines path w) as H.
  destruct (read_lines path w) as [[lines|[]] w1]; simpl in *; try exact H;
    destruct H as [H1 H2]; split; simpl; assumption.
Qed.

Lemma keeps_find self directory : keeps same_world (find_typescript_files self directory).
Proof.
  pose proof same_world_refl as R. pose proof same_world_trans as T.
  intros w. unfold find_typescript_files.
  destruct (w_dirs w !! directory) as [t|]; [|reflexivity].
  revert w. apply keeps_bind; auto using keeps_ret.
  apply keeps_os_walk; auto. intros top dirs files s. unfold walk_body.
  apply keeps_bind; auto using keeps_lift. intros kept.
  apply keeps_bind; auto using keeps_ret.
  apply keeps_for_each; auto. intros acc file. unfold file_step.
  destruct (is_typescript file); [|now apply keeps_ret].
  apply keeps_bind; auto using keeps_lift.
  intros []; now apply keeps_ret.
Qed.

Lemma keeps_collect self directories :
  keeps same_world (collect_files self directories).
Proof.
  pose proof same_world_refl as R. pose proof same_world_trans as T.
  unfold collect_files. apply keeps_for_each; auto. intros acc d. unfold collect_step.
  apply keeps_bind; auto.
  intros []; [now apply keeps_ret|].
  apply keeps_bind; auto using keeps_find, keeps_ret.
Qed.

End Frames.

(** ** The file processor *)

Section FileProcessor.

Context `{RE : ReModule}.

Lemma line_loop_transformed self file_context lines acc0 w acc w' :
  for_each (line_step self file_context) lines acc0 w = (Ok acc, w') ->
  exists ms, snd (fst acc) = (snd (fst acc0) ++ ms)%list
             /\ transformed self file_context lines ms.
Proof.
  revert acc0 w. induction lines as [|line lines IH]; intros acc0 w; cbn [for_each].
  - unfold ret. intros [= <- <-]. exists []. split; [now rewrite app_nil_r|constructor].
  - unfold bind at 1. unfold line_step at 1. unfold bind at 1.
    destruct (process_line self line file_context w) as [[[m c]|e] w1] eqn:E; [|discriminate].
    unfold bind at 1.
    destruct ((if _ && _ then print _ else ret tt) w1) as [[[]|e] w2]; [|discriminate].
    unfold ret at 1. intros H. apply IH in H as (ms & -> & F). cbn [fst snd].
    exists (m :: ms). split; [now rewrite <- app_assoc|].
    constructor; [|exact F]. exists c, w, w1. exact E.
Qed.

Lemma try_read_some path w lines w1 :
  try_read path w = (Ok (Some lines), w1) ->
  exists wr, w_files w !! path = Some (TextFile lines wr).
Proof.
  unfold try_read, read_lines.
  destruct (w_sigint w) as [[|k]|]; [discriminate| |];
    destruct (w_files w !! path) as [[ls wr| |]|]; try discriminate;
    intros [= <- <-]; exists wr; reflexivity.
Qed.

Lemma scan_inv self path w modified n w2 :
  scan self path w = Some (modified, n, w2) ->
  exists lines w1 k,
    should_exclude_file self path = Ok false
    /\ try_read path w = (Ok (Some lines), w1)
    /\ transform self (get_file_context path) lines w1 = (Ok (k, modified, n), w2)
    /\ w_files w2 = w_files w.
Proof.
  unfold scan. destruct (should_exclude_file self path) as [[|]|]; try discriminate.
  destruct (try_read path w) as [[[lines|]|] w1] eqn:R; try discriminate.
  destruct (transform _ _ lines w1) as [[[[k ms] c]|] w2'] eqn:T; try discriminate.
  cbn [fst snd]. intros [= <- <- <-]. exists lines, w1, k. repeat split; try assumption.
  pose proof (keeps_try_read path w) as [K1 _]. rewrite R in K1.
  pose proof (keeps_transform self (get_file_context path) lines w1) as [K2 _].
  rewrite T in K2. simpl in *. congruence.
Qed.

Lemma process_file_dry self path :
  dry_run self = true -> keeps same_disk (process_file self path).
Proof.
  intros D. pose proof same_disk_refl as R. pose proof same_disk_trans as T.
  unfold process_file. apply keeps_bind; auto using keeps_lift. intros [|].
  - now apply keeps_ret.
  - apply keeps_bind; auto using keeps_try_read. intros [lines|]; [|now apply keeps_ret].
    apply keeps_bind; auto using keeps_transform. intros acc.
    destruct (0 <? snd acc)%nat; [|now apply keeps_ret].
    rewrite D. apply keeps_bind; auto using keeps_print, keeps_ret.
Qed.

End FileProcessor.

(** C5, as stated, fails when the file cannot be opened for writing:
    the change count is 1, [open(file_path, 'w')] raises, and the content
    stays what it was. *)
Lemma C5_write_can_fail :
  ~ (forall (file_path : string) (w : World) (modified : list string) (n : nat) (w2 : World),
       scan (init false) file_path w = Some (modified, n, w2) ->
       1 <= n ->
       exists wr, w_files (snd (process_file (init false) file_path w)) !! file_path
                  = Some (TextFile modified wr)).
Proof.
  intros H.
  assert (S : exists w2, scan (init false) "src/a.ts" read_only_world
                         = Some (["let x: unknown;"], 1, w2))
    by (vm_compute; eexists; reflexivity).
  destruct S as [w2 S]. destruct (H _ _ _ _ _ S) as [wr E]; [lia|].
  vm_compute in E. discriminate.
Qed.

Example read_only_file_raises :
  fst (process_file (init false) "src/a.ts" read_only_world)
  = Raise (OSError "[Errno 13] Permission denied: 'src/a.ts'").
Proof. vm_compute. reflexivity. Qed.

(** C5, amended.  In dry-run mode [process_file] never changes the
    content of any file.  When the file is read and its lines are
    transformed with a cumulative change count [n]: if [n] is 0 the file
    is left untouched and [False] is returned without a notice; if [n] is
    at least 1, [dry_run] is false and the file can be opened for writing,
    its content afterwards is exactly the transformed lines and [True] is
    returned; if it cannot be opened for writing, the error leaves
    [process_file] and no content changes. *)
Theorem C5_process_file_effect `{RE : ReModule} (self : TypeScriptAnyReplacer)
    (file_path : string) (w : World) :
  (dry_run self = true -> w_files (snd (process_file self file_path w)) = w_files w)
  /\ (forall (modified : list string) (n : nat) (w2 : World),
        scan self file_path w = Some (modified, n, w2) ->
        (exists lines wr,
            w_files w !! file_path = Some (TextFile lines wr)
            /\ transformed self (get_file_context file_path) lines modified)
        /\ (n = 0 ->
            process_file self file_path w = (Ok (self, false), w2)
            /\ w_files w2 = w_files w)
        /\ (1 <= n -> dry_run self = false -> can_write file_path w = true ->
            fst (process_file self file_path w) = Ok (add_changes self n, true)
            /\ w_files (snd (process_file self file_path w))
               = <[file_path := TextFile modified true]> (w_files w))
        /\ (1 <= n -> dry_run self = false -> can_write file_path w = false ->
            (exists msg, fst (process_file self file_path w) = Raise (OSError msg))
            /\ w_files (snd (process_file self file_path w)) = w_files w)).
Proof.
  split.
  - intros D. apply (process_file_dry self file_path D w).
  - intros modified n w2 S.
    apply scan_inv in S as (lines & w1 & k & X & R & T & F).
    assert (CW : can_write file_path w2 = can_write file_path w)
      by (unfold can_write; now rewrite F).
    split; [|split; [|split]].
    + destruct (try_read_some _ _ _ _ R) as [wr L]. exists lines, wr. split; [exact L|].
      apply line_loop_transformed in T as (ms & E & Hms). simpl in E. now subst ms.
    + intros ->. split; [|exact F].
      unfold process_file, bind, lift. rewrite X, R, T. reflexivity.
    + intros N D C. unfold process_file, bind, lift. rewrite X, R, T. cbn [fst snd].
      destruct n as [|n]; [lia|]. cbn [Nat.ltb Nat.leb]. rewrite D.
      unfold bind, write_lines. rewrite CW, C. cbn. rewrite F. split; reflexivity.
    + intros N D C. unfold process_file, bind, lift. rewrite X, R, T. cbn [fst snd].
      destruct n as [|n]; [lia|]. cbn [Nat.ltb Nat.leb]. rewrite D.
      unfold bind, write_lines. rewrite CW, C. cbn. split; [eexists; reflexivity|exact F].
Qed.

Lemma C5_witness :
  w_files (snd (process_file (init true) "src/a.ts" writable_world)) = w_files writable_world
  /\ (fst (process_file (init false) "src/a.ts" writable_world)
      = Ok (add_changes (init false) 1, true)
      /\ w_files (snd (process_file (init false) "src/a.ts" writable_world))
         = <["src/a.ts" := TextFile ["let x: unknown;"; "ok"] true]> (w_files writable_world))
  /\ w_files (snd (process_file (init false) "src/b.ts" writable_world))
     = w_files writable_world
  /\ w_files (snd (process_file (init false) "src/a.ts" read_only_world))
     = w_files read_only_world.
Proof.
  split; [|split; [|split]].
  - apply (proj1 (C5_process_file_effect (init true) "src/a.ts" writable_world)).
    reflexivity.
  - edestruct (proj2 (C5_process_file_effect (init false) "src/a.ts" writable_world))
      as (_ & _ & H & _); [vm_compute; reflexivity|].
    apply H; [lia|reflexivity|vm_compute; reflexivity].
  - edestruct (proj2 (C5_process_file_effect (init false) "src/b.ts" writable_world))
      as (_ & H & _); [vm_compute; reflexivity|].
    destruct (H eq_refl) as [E F]. rewrite E. exact F.
  - edestruct (proj2 (C5_process_file_effect (init false) "src/a.ts" read_only_world))
      as (_ & _ & _ & H); [vm_compute; reflexivity|].
    apply H; [lia|reflexivity|vm_compute; reflexivity].
Defined.

(** ** File discovery *)

Section Discovery.

Context `{RE : ReModule}.

Variable self : TypeScriptAnyReplacer.

Lemma keep_dirs_kept root dirs kept d :
  keep_dirs self root dirs = Ok kept -> d ∈ kept ->
  d ∈ dirs /\ not_excluded self (path_join root d).
Proof.
  revert kept. induction dirs as [|x dirs IH]; intros kept; cbn [keep_dirs].
  - intros [= <-] H. inversion H.
  - destruct (any_search _ (path_join root x)) as [b|] eqn:E; [|discriminate].
    cbn [rbind]. destruct (keep_dirs self root dirs) as [k|]; [|discriminate].
    cbn [rbind]. intros [= <-] H. destruct b.
    + destruct (IH k eq_refl H) as [H1 H2]. split; [now right|exact H2].
    + apply elem_of_cons in H as [-> |H].
      * split; [left|exact E].
      * destruct (IH k eq_refl H) as [H1 H2]. split; [now right|exact H2].
Qed.

Lemma walk_body_kept top dirs files s w r w' :
  walk_body self top dirs files s w = (Ok r, w') ->
  keep_dirs self top dirs = Ok (fst r).
Proof.
  unfold walk_body, bind, lift.
  destruct (keep_dirs self top dirs) as [kept|]; [|discriminate].
  destruct (for_each _ files s w) as [[ts|] w1]; [|discriminate].
  unfold ret. intros [= <- <-]. reflexivity.
Qed.

Lemma file_loop_found root files acc w acc' w' p :
  for_each (file_step self root) files acc w = (Ok acc', w') ->
  p ∈ acc' -> p ∈ acc \/ exists f, f ∈ files /\ p = path_join root f.
Proof.
  revert acc w. induction files as [|f files IH]; intros acc w; cbn [for_each].
  - unfold ret. intros [= <- <-]. now left.
  - unfold bind at 1.
    destruct (file_step self root acc f w) as [[acc1|] w1] eqn:E; [|discriminate].
    intros H Hp. destruct (IH _ _ H Hp) as [Hin|(g & Hg & ->)].
    + assert (p ∈ acc \/ p = path_join root f) as [?| ->].
      { revert E. unfold file_step. destruct (is_typescript f).
        - unfold bind, lift. destruct (should_exclude_file _ _) as [[|]|]; try discriminate;
            unfold ret; cbn [negb]; intros [= <- <-]; [now left|].
          apply elem_of_app in Hin as [?|Hin]; [now left|].
          apply list_elem_of_singleton in Hin. now right.
        - unfold ret. intros [= <- <-]. now left. }
      * now left.
      * right. exists f. split; [left|reflexivity].
    + right. exists g. split; [now right|reflexivity].
Qed.

Lemma walk_body_found top dirs files s w r w' p :
  walk_body self top dirs files s w = (Ok r, w') ->
  p ∈ snd r -> p ∈ s \/ exists f, f ∈ files /\ p = path_join top f.
Proof.
  unfold walk_body, bind, lift.
  destruct (keep_dirs self top dirs) as [kept|]; [|discriminate].
  destruct (for_each _ files s w) as [[ts|] w1] eqn:E; [|discriminate].
  unfold ret. intros [= <- <-]. cbn [snd]. now apply (file_loop_found _ _ _ _ _ _ _ E).
Qed.

Lemma descend_inv {S} (walk : string -> tree -> S -> M S) top l d s w s' w' :
  descend_into walk top l d s w = (Ok s', w') ->
  s' = s \/ exists t, (d, t) ∈ l /\ walk (path_join top d) t s w = (Ok s', w').
Proof.
  induction l as [|[n t] l IH]; cbn [descend_into].
  - unfold ret. intros [= <- <-]. now left.
  - destruct (String.eqb n d) eqn:E.
    + apply String.eqb_eq in E as ->. intros H. right. exists t. split; [left|exact H].
    + intros H. destruct (IH H) as [?|(t' & Ht & Hw)]; [now left|].
      right. exists t'. split; [now right|exact Hw].
Qed.

Lemma os_walk_reached t :
  forall top s w s' w' p,
    os_walk (walk_body self) top t s w = (Ok s', w') ->
    p ∈ s' -> p ∈ s \/ reached self top t p.
Proof.
  induction t as [files dirs IH] using tree_induction.
  intros top s w s' w' p. cbn [os_walk]. unfold bind at 1.
  destruct (walk_body self top (map fst dirs) files s w) as [[r|] w1] eqn:B; [|discriminate].
  pose proof (walk_body_kept _ _ _ _ _ _ _ B) as K.
  assert (L : forall kept s1 w1 s' w',
             (forall d, d ∈ kept -> not_excluded self (path_join top d)) ->
             for_each (fun s d => descend_into (os_walk (walk_body self)) top dirs d s)
                      kept s1 w1 = (Ok s', w') ->
             p ∈ s' -> p ∈ s1 \/ reached self top (Node files dirs) p).
  { clear - IH. induction kept as [|d kept IHk]; intros s1 w1 s' w' N; cbn [for_each].
    - unfold ret. intros [= <- <-]. now left.
    - unfold bind at 1.
      destruct (descend_into _ top dirs d s1 w1) as [[s2|] w2] eqn:D; [|discriminate].
      intros H Hp.
      destruct (IHk _ _ _ _ (fun x Hx => N x (list_elem_of_further _ _ _ Hx)) H Hp)
        as [Hin|?]; [|now right].
      apply descend_inv in D as [-> |(t & Ht & Hw)]; [now left|].
      rewrite Forall_forall in IH. specialize (IH (d, t) Ht). cbn [snd] in IH.
      destruct (IH _ _ _ _ _ _ Hw Hin) as [?|(chain & Hl & Hc)]; [now left|].
      right. exists (path_join top d :: chain). split.
      + now apply located_below with t.
      + constructor; [apply N; left|exact Hc]. }
  intros H Hp.
  destruct (L _ _ _ _ _ (fun d Hd => proj2 (keep_dirs_kept _ _ _ _ K Hd)) H Hp) as [Hin|?];
    [|now right].
  destruct (walk_body_found _ _ _ _ _ _ _ _ B Hin) as [?|(f & Hf & ->)]; [now left|].
  right. exists []. split; [now constructor|constructor].
Qed.

Lemma descend_other {S} (walk : string -> tree -> S -> M S) top l1 l2 d t1 t2 d' s :
  d' <> d ->
  descend_into walk top (l1 ++ (d, t1) :: l2) d' s
  = descend_into walk top (l1 ++ (d, t2) :: l2) d' s.
Proof.
  intros N. induction l1 as [|[n t] l1 IH]; cbn [descend_into app].
  - destruct (String.eqb d d') eqn:E; [|reflexivity].
    apply String.eqb_eq in E. congruence.
  - destruct (String.eqb n d'); [reflexivity|exact IH].
Qed.

Lemma for_each_ext {A S} (body1 body2 : S -> A -> M S) l s w :
  (forall s x w, x ∈ l -> body1 s x w = body2 s x w) ->
  for_each body1 l s w = for_each body2 l s w.
Proof.
  revert s w. induction l as [|x l IH]; intros s w E; cbn [for_each]; [reflexivity|].
  unfold bind. rewrite (E s x w) by left.
  destruct (body2 s x w) as [[s1|] w1]; [|reflexivity].
  apply IH. intros s2 y w2 Hy. apply E. now right.
Qed.

(** The walk does not look into a subdirectory that an exclude pattern
    matches: whatever lies under it, the walk is the same. *)
Lemma os_walk_pruned top files l1 l2 d t1 t2 s w :
  any_search (exclude_patterns self) (path_join top d) = Ok true ->
  os_walk (walk_body self) top (Node files (l1 ++ (d, t1) :: l2)) s w
  = os_walk (walk_body self) top (Node files (l1 ++ (d, t2) :: l2)) s w.
Proof.
  intros X. cbn [os_walk].
  replace (map fst (l1 ++ (d, t2) :: l2)) with (map fst (l1 ++ (d, t1) :: l2))
    by (rewrite !map_app; reflexivity).
  unfold bind.
  destruct (walk_body self top _ files s w) as [[r|] w1] eqn:B; [|reflexivity].
  apply for_each_ext. intros s' d' w' Hd. rewrite (descend_other _ _ _ _ d t1 t2); [reflexivity|].
  intros ->. apply walk_body_kept in B.
  destruct (keep_dirs_kept _ _ _ _ B Hd) as [_ N]. unfold not_excluded in N. congruence.
Qed.

End Discovery.

Lemma sorted_elem l p : p ∈ sorted l <-> p ∈ l.
Proof. unfold sorted. now rewrite merge_sort_Permutation. Qed.

(** C6. For every root and every list of exclude patterns, built-in or
    added by the user: the walk does not descend into a subdirectory
    whose path matches an exclude pattern (what lies under it has no
    effect on the walk), and every file in the list of candidates is
    reached from the root through subdirectories that no exclude pattern
    matches, so that no file under an excluded subdirectory is a
    candidate. *)
Theorem C6_excluded_directories_pruned `{RE : ReModule} (self : TypeScriptAnyReplacer) :
  (forall (top : string) (files : list string) (l1 l2 : list (string * tree)) (d : string)
          (t1 t2 : tree) (s : list string) (w : World),
      any_search (exclude_patterns self) (path_join top d) = Ok true ->
      os_walk (walk_body self) top (Node files (l1 ++ (d, t1) :: l2)) s w
      = os_walk (walk_body self) top (Node files (l1 ++ (d, t2) :: l2)) s w)
  /\ (forall (directory : string) (t : tree) (w : World) (found : list string) (w' : World),
        w_dirs w !! directory = Some t ->
        find_typescript_files self directory w = (Ok found, w') ->
        forall p, p ∈ found ->
          exists chain, located directory t chain p
                        /\ Forall (fun D => any_search (exclude_patterns self) D = Ok false)
                                  chain).
Proof.
  split.
  - intros. now apply os_walk_pruned.
  - intros directory t w found w' L. unfold find_typescript_files. rewrite L.
    unfold bind.
    destruct (os_walk (walk_body self) directory t [] w) as [[ts|] w1] eqn:E; [|discriminate].
    unfold ret. intros [= <- <-] p Hp. apply (proj1 (sorted_elem _ _)) in Hp.
    destruct (os_walk_reached self t _ _ _ _ _ _ E Hp) as [Hin|R]; [inversion Hin|exact R].
Qed.

Lemma C6_witness :
  os_walk (walk_body (extend_exclude (init false) ["gen$"])) "src"
    (Node ["b.ts"] ([("lib", Node ["z.tsx"] [])] ++ ("gen", Node ["g.ts"] []) :: [])) []
    project_world
  = os_walk (walk_body (extend_exclude (init false) ["gen$"])) "src"
      (Node ["b.ts"] ([("lib", Node ["z.tsx"] [])] ++ ("gen", Node [] []) :: [])) []
      project_world
  /\ exists chain,
       located "src" project_tree chain "src/lib/z.tsx"
       /\ Forall (fun D => any_search
                             (exclude_patterns (extend_exclude (init false) ["gen$"])) D
                           = Ok false) chain.
Proof.
  split.
  - apply (proj1 (C6_excluded_directories_pruned (extend_exclude (init false) ["gen$"]))).
    vm_compute. reflexivity.
  - apply (proj2 (C6_excluded_directories_pruned (extend_exclude (init false) ["gen$"]))
             "src" project_tree project_world ["src/a.ts"; "src/b.ts"; "src/lib/z.tsx"]
             project_world).
    + vm_compute. reflexivity.
    + vm_compute. reflexivity.
    + vm_compute. set_solver.
Defined.

Example discovery_of_project :
  fst (find_typescript_files (extend_exclude (init false) ["gen$"]) "src" project_world)
  = Ok ["src/a.ts"; "src/b.ts"; "src/lib/z.tsx"].
Proof. vm_compute. reflexivity. Qed.

(** ** The run driver *)

Lemma chars_le_total a b : chars_le a b = true \/ chars_le b a = true.
Proof.
  revert b. induction a as [|x a IH]; intros [|y b]; cbn [chars_le]; auto.
  destruct (IH b) as [H|H]; rewrite H;
    destruct (Nat.ltb_spec (code x) (code y)), (Nat.ltb_spec (code y) (code x)),
      (Nat.eqb_spec (code x) (code y)), (Nat.eqb_spec (code y) (code x));
    cbn; auto; lia.
Qed.

Lemma chars_le_trans a b c : chars_le a b = true -> chars_le b c = true -> chars_le a c = true.
Proof.
  revert b c. induction a as [|x a IH]; intros [|y b] [|z c]; cbn [chars_le];
    try reflexivity; try discriminate.
  rewrite !orb_true_iff, !andb_true_iff, !Nat.ltb_lt, !Nat.eqb_eq.
  intros [H1|[H1 L1]] [H2|[H2 L2]]; try (left; lia).
  right. split; [lia|]. exact (IH _ _ L1 L2).
Qed.

#[export] Instance str_le_total : Total str_le.
Proof. intros a b. apply chars_le_total. Qed.

#[export] Instance str_le_trans : Transitive str_le.
Proof. intros a b c. apply chars_le_trans. Qed.


Section RunDriver.

Context `{RE : ReModule}.






End RunDriver.


Example files_processed_in_the_order_given :
  w_out (snd (main (MkArgs ["b.ts"; "a.ts"] true None) two_files_world))
  = ["Found 2 TypeScript files to process";
     "=== DRY RUN MODE - No files will be modified ===";
     Builtin.as_any_warning;
     "[DRY RUN] Would modify b.ts: 1 changes";
     Builtin.as_any_warning;
     "[DRY RUN] Would modify a.ts: 1 changes";
     nl +:+ "Summary:";
     "  Files processed: 2";
     "  Files modified: 2";
     "  Total changes: 2";
     nl +:+ "Run without --dry-run to apply changes"].
Proof. vm_compute. reflexivity. Qed.



(** ** Exit status *)

(** C9. The value [main] returns, which is the exit status, is 0 when
    [run] completes (a dry run included) and when [run] is interrupted:
    the interrupt ends the run where it stands, the cancellation notice is
    printed and nothing is raised again.  It is 1 exactly when [run]
    raises any other exception, and then the message of the exception is
    printed, and nothing else.  With an interrupt at the second of two
    files the first is rewritten, the second is untouched and no summary
    is printed. *)
Theorem C9_exit_status :
  (forall (RE : ReModule) (args : Args) (w : World),
      let r := run (main_replacer args) (paths args) w in
      (forall self', fst r = Ok self' -> main args w = (0, snd r))
      /\ (fst r = Raise KeyboardInterrupt ->
          main args w = (0, snd (print (nl +:+ "Operation cancelled by user") (snd r))))
      /\ (forall e, fst r = Raise e -> e <> KeyboardInterrupt ->
          main args w = (1, snd (print ("Error: " +:+ exn_msg e) (snd r))))
      /\ (fst (main args w) = 1 <-> exists e, fst r = Raise e /\ e <> KeyboardInterrupt)
      /\ (fst (main args w) = 0 \/ fst (main args w) = 1))
  /\ (let r := main (MkArgs ["a.ts"; "b.ts"] false None) interrupted_world in
      fst r = 0
      /\ w_out (snd r)
         = ["Found 2 TypeScript files to process";
            Builtin.as_any_warning;
            "  Line 1: let a: any; -> let a: unknown;";
            "Modified a.ts: 1 changes";
            nl +:+ "Operation cancelled by user"]
      /\ w_files (snd r) !! "a.ts" = Some (TextFile ["let a: unknown;"] true)
      /\ w_files (snd r) !! "b.ts" = Some (TextFile ["let b: any;"] true))
  /\ (let r := main (MkArgs ["a.ts"] false (Some ["("])) two_files_world in
      fst r = 1
      /\ w_out (snd r)
         = ["Found 1 TypeScript files to process";
            "Error: missing ), unterminated subpattern at position 0"])
  /\ fst (main (MkArgs ["a.ts"] true None) two_files_world) = 0.
Proof.
  split; [|split; [|split]].
  - intros RE args w r. unfold main. fold r. destruct r as [[self'|e] w'] eqn:R; cbn [fst snd].
    + repeat split.
      * discriminate.
      * discriminate.
      * discriminate.
      * intros (e & [=] & _).
      * now left.
    + destruct e; cbn [fst snd]; repeat split; try discriminate; try congruence;
        try (intros e' [= <-] N; try reflexivity; congruence);
        try (intros _; eexists; split; [reflexivity|discriminate]);
        try (intros (e' & [= <-] & N); congruence);
        try (now left); try (now right).
  - vm_compute. repeat split; reflexivity.
  - vm_compute. repeat split; reflexivity.
  - vm_compute. reflexivity.
Qed.

Lemma C9_witness :
  main failing_args read_only_world
  = (1, snd (print ("Error: " +:+ exn_msg (OSError "[Errno 13] Permission denied: 'src/a.ts'"))
               (snd (run (main_replacer failing_args) (paths failing_args) read_only_world))))
  /\ main interrupted_args (set_sigint (Some 0) two_files_world)
     = (0, snd (print (nl +:+ "Operation cancelled by user")
                  (snd (run (main_replacer interrupted_args) (paths interrupted_args)
                          (set_sigint (Some 0) two_files_world)))))
  /\ main dry_args two_files_world
     = (0, snd (run (main_replacer dry_args) (paths dry_args) two_files_world)).
Proof.
  split; [|split].
  - apply (proj1 (proj2 (proj2 (proj1 C9_exit_status sre failing_args read_only_world)))
             (OSError "[Errno 13] Permission denied: 'src/a.ts'")).
    + vm_compute. reflexivity.
    + discriminate.
  - apply (proj1 (proj2 (proj1 C9_exit_status sre interrupted_args
                           (set_sigint (Some 0) two_files_world)))).
    vm_compute. reflexivity.
  - apply (proj1 (proj1 C9_exit_status sre dry_args two_files_world)
             (add_changes (count_file (init true)) 1)).
    vm_compute. reflexivity.
Defined.

(** * Further properties *)

(** ** Loops under an invariant *)

Lemma keeps_for_each_inv {A S} (P : World -> World -> Prop) (Inv : S -> Prop)
    (body : S -> A -> M S) l s :
  (forall w, P w w) -> (forall a b c, P a b -> P b c -> P a c) ->
  (forall s x w s' w', Inv s -> body s x w = (Ok s', w') -> Inv s') ->
  (forall s x, Inv s -> x ∈ l -> keeps P (body s x)) ->
  Inv s -> keeps P (for_each body l s).
Proof.
  intros R T Hi Hk. revert s. induction l as [|x l IH]; intros s I; cbn [for_each].
  - now apply keeps_ret.
  - intros w. unfold bind. pose proof (Hk s x I (list_elem_of_here _ _) w) as K.
    destruct (body s x w) as [[s1|e] w1] eqn:E; cbn [snd] in *; [|exact K].
    apply (T _ _ _ K). apply IH.
    + intros s2 y I2 Hy. apply Hk; [exact I2|now right].
    + exact (Hi _ _ _ _ _ I E).
Qed.

Lemma touches_refl S w : touches S w w.
Proof. repeat split; auto. Qed.




Lemma same_world_touches S w w' : same_world w w' -> touches S w w'.
Proof. intros ->. apply touches_refl. Qed.

Lemma same_tables_refl self : same_tables self self.
Proof. repeat split. Qed.

Section Effects.

Context `{RE : ReModule}.

(** What [process_file] returns as the new object: [self] with
    [changes_made] raised by the change count, which is at least 1
    exactly when the value returned is [True]. *)
Lemma process_file_self self path w self' b w' :
  process_file self path w = (Ok (self', b), w') ->
  same_tables self self'
  /\ files_processed self' = files_processed self
  /\ exists k, changes_made self' = changes_made self + k
               /\ (b = true -> 1 <= k) /\ (b = false -> k = 0).
Proof.
  unfold process_file, bind, lift.
  destruct (should_exclude_file self path) as [[|]|]; try discriminate.
  { unfold ret. intros [= <- <- <-]. repeat split. exists 0. repeat split; (lia || discriminate). }
  destruct (try_read path w) as [[[lines|]|] w1]; try discriminate.
  2: { unfold ret. intros [= <- <- <-]. repeat split. exists 0.
       repeat split; (lia || discriminate). }
  destruct (transform _ _ lines w1) as [[acc|] w2]; [|discriminate].
  destruct (0 <? snd acc)%nat eqn:Z.
  - apply Nat.ltb_lt in Z.
    assert (G : forall w3, (self', b, w') = (add_changes self (snd acc), true, w3) ->
                same_tables self self'
                /\ files_processed self' = files_processed self
                /\ exists k, changes_made self' = changes_made self + k
                             /\ (b = true -> 1 <= k) /\ (b = false -> k = 0)).
    { intros w3 [= -> -> ->]. repeat split. exists (snd acc).
      repeat split; (lia || discriminate || reflexivity). }
    destruct (dry_run self).
    + unfold print, ret. cbn. intros [= <- <- <-]. eapply G. reflexivity.
    + unfold write_lines. destruct (can_write path w2); [|discriminate].
      unfold print, ret. cbn. intros [= <- <- <-]. eapply G. reflexivity.
  - unfold ret. intros [= <- <- <-]. repeat split. exists 0.
    repeat split; (lia || discriminate).
Qed.


Lemma file_loop_step_tables acc path w acc' w' :
  file_loop_step acc path w = (Ok acc', w') -> same_tables (fst acc) (fst acc').
Proof.
  unfold file_loop_step, bind.
  destruct (process_file (count_file (fst acc)) path w) as [[[s1 b]|] w1] eqn:E; [|discriminate].
  unfold ret. intros [= <- <-]. apply process_file_self in E as (T & _). exact T.
Qed.


Lemma keeps_summary self n : keeps same_disk (summary self n).
Proof.
  pose proof same_disk_refl as R. pose proof same_disk_trans as T.
  unfold summary. repeat (apply keeps_bind; auto using keeps_print; intros _).
  destruct (dry_run self); auto using keeps_print, keeps_ret.
Qed.


Lemma main_world args w :
  exists out, snd (main args w)
              = MkWorld (w_files (snd (run (main_replacer args) (paths args) w)))
                        (w_dirs (snd (run (main_replacer args) (paths args) w)))
                        out
                        (w_sigint (snd (run (main_replacer args) (paths args) w))).
Proof.
  unfold main. destruct (run _ _ w) as [[s|e] w1]; cbn [snd].
  - exists (w_out w1). now destruct w1.
  - destruct e; eexists; reflexivity.
Qed.

End Effects.





Section RunEffects.

Context `{RE : ReModule}.

Lemma run_keeps_disk self directories :
  (forall s path, same_tables self s -> keeps same_disk (process_file (count_file s) path)) ->
  keeps same_disk (run self directories).
Proof.
  intros Hp. pose proof same_disk_refl as R. pose proof same_disk_trans as T.
  unfold run. apply keeps_bind; auto.
  { intros w. pose proof (keeps_collect self directories w) as K.
    unfold same_world in K. rewrite K. apply same_disk_refl. }
  intros l. apply keeps_bind; auto using keeps_print. intros _.
  apply keeps_bind; auto.
  { destruct (dry_run self); auto using keeps_print, keeps_ret. }
  intros _. apply keeps_bind; auto.
  - apply (keeps_for_each_inv same_disk (fun acc => same_tables self (fst acc))); auto.
    + intros s x w s' w' I E. apply file_loop_step_tables in E.
      destruct I as (?&?&?&?&?), E as (?&?&?&?&?). repeat split; congruence.
    + intros s x I _. unfold file_loop_step. apply keeps_bind; auto using keeps_ret.
    + apply same_tables_refl.
  - intros acc. apply keeps_bind; auto using keeps_summary, keeps_ret.
Qed.

Lemma main_files args w :
  w_files (snd (main args w)) = w_files (snd (run (main_replacer args) (paths args) w))
  /\ w_dirs (snd (main args w)) = w_dirs (snd (run (main_replacer args) (paths args) w)).
Proof. destruct (main_world args w) as [out ->]. split; reflexivity. Qed.

Lemma main_replacer_dry args : dry_run (main_replacer args) = arg_dry_run args.
Proof. unfold main_replacer. destruct (exclude args) as [[|p ps]|]; reflexivity. Qed.

Lemma main_replacer_exclude args p ps :
  exclude args = Some (p :: ps) ->
  exclude_patterns (main_replacer args) = (builtin_exclude ++ p :: ps)%list.
Proof. unfold main_replacer. intros ->. reflexivity. Qed.

Lemma any_search_never_false patterns pattern s :
  pattern ∈ patterns -> always_raises pattern -> any_search patterns s <> Ok false.
Proof.
  intros Hin Hr. induction patterns as [|p ps IH]; [inversion Hin|]. cbn [any_search].
  apply elem_of_cons in Hin as [-> |Hin].
  - destruct (Hr s) as [e ->]. discriminate.
  - destruct (re_search p s) as [[m|]|e]; cbn [rbind]; try discriminate. now apply IH.
Qed.

Lemma process_file_never_cleared self path :
  (forall s, should_exclude_file self s <> Ok false) ->
  keeps same_disk (process_file self path).
Proof.
  intros H w. unfold process_file, bind, lift. specialize (H path).
  destruct (should_exclude_file self path) as [[|]|]; try apply same_disk_refl.
  contradiction.
Qed.

Lemma file_loop_counters l s0 m w s1 m' w' :
  for_each file_loop_step l (s0, m) w = (Ok (s1, m'), w') ->
  m <= m' /\ m' <= m + length l
  /\ files_processed s1 = files_processed s0 + length l
  /\ exists k, changes_made s1 = changes_made s0 + k /\ m' - m <= k /\ (m' = m -> k = 0).
Proof.
  revert s0 m w. induction l as [|p l IH]; intros s0 m w; cbn [for_each].
  - unfold ret. intros [= <- <- <-]. cbn. repeat split; try lia. exists 0. lia.
  - unfold bind at 1. unfold file_loop_step at 1. unfold bind at 1. cbn [fst snd].
    destruct (process_file (count_file s0) p w) as [[[s b]|] w1] eqn:E; [|discriminate].
    unfold ret at 1. cbn [fst snd]. intros H. apply IH in H as (L1 & L2 & F & k & C & K1 & K2).
    apply process_file_self in E as (_ & Fp & k0 & C0 & B1 & B2). cbn in Fp, C0.
    destruct b.
    + specialize (B1 eq_refl). cbn [length]. repeat split; try lia.
      exists (k0 + k). lia.
    + specialize (B2 eq_refl). cbn [length]. repeat split; try lia.
      exists k. lia.
Qed.

Lemma changed_zero_final rules line :
  changed_applications rules line = 0 -> final_line rules line = line.
Proof.
  revert line. unfold final_line. induction rules as [|r rules IH]; intros line; cbn.
  - reflexivity.
  - case_bool_decide as N; [discriminate|]. cbn. intros H. rewrite N in *. now apply IH.
Qed.

Lemma line_loop_changes self file_context lines acc0 w acc w' :
  for_each (line_step self file_context) lines acc0 w = (Ok acc, w') ->
  snd acc0 <= snd acc
  /\ (snd acc = snd acc0 -> snd (fst acc) = (snd (fst acc0) ++ lines)%list).
Proof.
  revert acc0 w. induction lines as [|line lines IH]; intros acc0 w; cbn [for_each].
  - unfold ret. intros [= <- <-]. split; [lia|]. now rewrite app_nil_r.
  - unfold bind at 1. unfold line_step at 1. unfold bind at 1.
    destruct (process_line self line file_context w) as [[[m c]|e] w1] eqn:E; [|discriminate].
    unfold bind at 1.
    destruct ((if _ && _ then print _ else ret tt) w1) as [[[]|e] w2]; [|discriminate].
    unfold ret at 1. intros H. apply IH in H as [L Z]. cbn [fst snd] in *.
    split; [lia|]. intros Eq. assert (c = 0) as -> by lia.
    apply process_line_count in E as [C ->]. symmetry in C.
    rewrite (changed_zero_final _ _ C) in Z. rewrite Z by lia.
    now rewrite <- app_assoc.
Qed.

Lemma collect_nothing self directories acc w :
  (forall d, d ∈ directories -> w_files w !! d = None /\ w_dirs w !! d = None) ->
  for_each (collect_step self) directories acc w = (Ok acc, w).
Proof.
  revert acc. induction directories as [|d ds IH]; intros acc H; cbn [for_each].
  - reflexivity.
  - destruct (H d) as [F D]; [left|].
    unfold bind at 1. unfold collect_step, bind, isfile. rewrite F.
    rewrite bool_decide_false by (intros [? ?]; discriminate).
    unfold find_typescript_files. rewrite D. cbn. rewrite app_nil_r.
    apply IH. intros x Hx. apply H. now right.
Qed.

End RunEffects.

(** X3. With [--dry-run] the program changes no file and no directory,
    however the run ends. *)
Theorem dry_run_changes_nothing `{RE : ReModule} (args : Args) (w : World) :
  arg_dry_run args = true ->
  w_files (snd (main args w)) = w_files w /\ w_dirs (snd (main args w)) = w_dirs w.
Proof.
  intros D. destruct (main_files args w) as [-> ->].
  apply run_keeps_disk. intros s path (Ds & _). apply process_file_dry.
  cbn. rewrite Ds, main_replacer_dry. exact D.
Qed.

Lemma X3_witness :
  w_files (snd (main (MkArgs ["b.ts"; "a.ts"] true None) two_files_world))
  = w_files two_files_world
  /\ w_dirs (snd (main (MkArgs ["b.ts"; "a.ts"] true None) two_files_world))
     = w_dirs two_files_world.
Proof.
  apply (dry_run_changes_nothing (MkArgs ["b.ts"; "a.ts"] true None) two_files_world).
  reflexivity.
Defined.

(** X4. When one of the [--exclude] patterns does not compile, the
    program writes no file: a file is written only after every exclude
    pattern has been searched in its path, and the search with that
    pattern raises. *)
Theorem malformed_exclude_writes_nothing `{RE : ReModule} (args : Args) (w : World)
    (more : list string) (bad : string) :
  exclude args = Some more -> bad ∈ more -> always_raises bad ->
  w_files (snd (main args w)) = w_files w.
Proof.
  intros E Hin Hr. destruct (main_files args w) as [-> _].
  destruct more as [|p ps]; [inversion Hin|].
  apply run_keeps_disk. intros s path (_ & _ & _ & X & _).
  apply process_file_never_cleared. intros q. rewrite should_exclude_file_any.
  cbn [exclude_patterns count_file]. rewrite X, (main_replacer_exclude _ _ _ E).
  apply (any_search_never_false _ bad); [|exact Hr].
  apply elem_of_app. now right.
Qed.

Lemma X4_witness :
  w_files (snd (main (MkArgs ["b.ts"; "a.ts"] false (Some ["gen$"; "("])) two_files_world))
  = w_files two_files_world.
Proof.
  apply (malformed_exclude_writes_nothing
           (MkArgs ["b.ts"; "a.ts"] false (Some ["gen$"; "("])) two_files_world
           ["gen$"; "("] "(").
  - reflexivity.
  - right. left.
  - intros s. eexists. cbn [re_search sre]. unfold sre_search.
    change (re_compile "(") with (Parser.parse (chars "(") 0 Parser.start).
    vm_compute. reflexivity.
Defined.

Section Summary.

Context `{RE : ReModule}.

Lemma summary_prints self n w :
  summary self n w
  = (Ok tt, MkWorld (w_files w) (w_dirs w) (w_out w ++ summary_lines self n) (w_sigint w)).
Proof.
  unfold summary, summary_lines, bind, print, ret. cbn.
  destruct (dry_run self); cbn; rewrite <- ?app_assoc; reflexivity.
Qed.

Lemma run_inv_summary self directories w self' w' :
  run self directories w = (Ok self', w') ->
  exists files_modified w1 w2,
    for_each file_loop_step (candidates_of self directories w) (self, 0) w1
    = (Ok (self', files_modified), w2)
    /\ w_out w' = (w_out w2 ++ summary_lines self' files_modified)%list.
Proof.
  unfold candidates_of, run. unfold bind at 1.
  destruct (collect_files self directories w) as [[l|] w0] eqn:C; [|discriminate].
  cbn [fst]. unfold bind at 1. unfold print at 1. unfold bind at 1.
  set (w1 := MkWorld _ _ _ _).
  destruct ((if dry_run self then _ else ret tt) w1) as [[[]|] w2] eqn:B; [|discriminate].
  unfold bind at 1.
  destruct (for_each file_loop_step l (self, 0) w2) as [[[s fm]|] w3] eqn:F; [|discriminate].
  unfold bind at 1. cbn [fst snd]. rewrite summary_prints. unfold ret.
  intros [= <- <-]. exists fm, w2, w3. split; [exact F|reflexivity].
Qed.

End Summary.

(** X5. In a run that completes, the counters of the summary are
    consistent: every candidate is counted as processed, the number of
    files modified is at most the number of candidates, the total of
    changes grows by at least one for each file modified, and it stays
    what it was exactly when no file is modified.  The summary printed is
    the one of these counters. *)
Theorem run_counters_consistent `{RE : ReModule} (self : TypeScriptAnyReplacer)
    (directories : list string) (w : World) (self' : TypeScriptAnyReplacer) (w' : World) :
  run self directories w = (Ok self', w') ->
  exists files_modified out,
    w_out w' = (out ++ summary_lines self' files_modified)%list
    /\ files_processed self'
       = files_processed self + length (candidates_of self directories w)
    /\ files_modified <= length (candidates_of self directories w)
    /\ changes_made self + files_modified <= changes_made self'
    /\ (files_modified = 0 <-> changes_made self' = changes_made self).
Proof.
  intros H. apply run_inv_summary in H as (fm & w1 & w2 & F & O).
  apply file_loop_counters in F as (_ & L & P & k & C & K1 & K2).
  exists fm, (w_out w2). repeat split; try assumption; try lia.
Qed.

Lemma X5_witness :
  exists files_modified out,
    w_out (snd (run (init true) ["b.ts"; "a.ts"] two_files_world))
    = (out ++ summary_lines after_two_files files_modified)%list
    /\ files_processed after_two_files
       = files_processed (init true)
         + length (candidates_of (init true) ["b.ts"; "a.ts"] two_files_world)
    /\ files_modified <= length (candidates_of (init true) ["b.ts"; "a.ts"] two_files_world)
    /\ changes_made (init true) + files_modified <= changes_made after_two_files
    /\ (files_modified = 0 <-> changes_made after_two_files = changes_made (init true)).
Proof.
  apply (run_counters_consistent (init true) ["b.ts"; "a.ts"] two_files_world
           after_two_files (snd (run (init true) ["b.ts"; "a.ts"] two_files_world))).
  vm_compute. reflexivity.
Defined.

(** X6. A change count of 0 means that the text is unchanged: a line
    for which [process_line] reports 0 changes is returned as it was, and
    when the cumulative count of a file is 0 the transformed lines are
    the lines of the file, so that nothing is lost when [process_file]
    does not write. *)
Theorem zero_changes_mean_same_text `{RE : ReModule} (self : TypeScriptAnyReplacer) :
  (forall (line file_context : string) (w : World) (out : string) (w' : World),
      process_line self line file_context w = (Ok (out, 0), w') -> out = line)
  /\ (forall (file_path : string) (w : World) (modified : list string) (w2 : World),
        scan self file_path w = Some (modified, 0, w2) ->
        exists wr, w_files w !! file_path = Some (TextFile modified wr)).
Proof.
  split.
  - intros line file_context w out w' H. apply process_line_count in H as [C ->].
    symmetry in C. now apply changed_zero_final.
  - intros file_path w modified w2 S.
    apply scan_inv in S as (lines & w1 & k & _ & R & T & _).
    destruct (try_read_some _ _ _ _ R) as [wr L]. exists wr. rewrite L.
    unfold transform in T. apply line_loop_changes in T as [_ Z]. cbn in Z.
    now rewrite Z.
Qed.

Lemma X6_witness :
  "const x = 1;" = "const x = 1;"
  /\ exists wr, w_files writable_world !! "src/b.ts" = Some (TextFile ["ok"] wr).
Proof.
  split.
  - apply (proj1 (zero_changes_mean_same_text (init false)) "const x = 1;" "general"
             empty_world "const x = 1;" (Builtin.warn empty_world)).
    vm_compute. reflexivity.
  - eapply (proj2 (zero_changes_mean_same_text (init false)) "src/b.ts" writable_world).
    vm_compute. reflexivity.
Defined.

(** X7. A file that cannot be read is skipped and the run goes on: when
    the path is not excluded and opening or decoding it fails,
    [process_file] prints one warning with the message of the error and
    returns [False]; it raises nothing, changes no file and leaves the
    counters of the object as they are. *)
Theorem unreadable_file_is_skipped `{RE : ReModule} (self : TypeScriptAnyReplacer)
    (file_path : string) (w : World) :
  should_exclude_file self file_path = Ok false ->
  unreadable file_path w ->
  w_sigint w <> Some 0 ->
  process_file self file_path w
  = (Ok (self, false),
     MkWorld (w_files w) (w_dirs w)
       (w_out w ++ ["Warning: Could not read " +:+ file_path +:+ ": "
                    +:+ read_error file_path w])
       (option_map pred (w_sigint w))).
Proof.
  intros X U S. unfold process_file, bind, lift. rewrite X.
  unfold try_read, read_error, read_lines.
  destruct (w_sigint w) as [[|n]|]; [contradiction| |];
    destruct U as [U|[U|U]]; rewrite U; reflexivity.
Qed.

Lemma X7_witness :
  process_file (init false) "a.ts" broken_world
  = (Ok (init false, false),
     MkWorld (w_files broken_world) (w_dirs broken_world)
       (w_out broken_world ++ ["Warning: Could not read " +:+ "a.ts" +:+ ": "
                               +:+ read_error "a.ts" broken_world])
       (option_map pred (w_sigint broken_world))).
Proof.
  apply (unreadable_file_is_skipped (init false) "a.ts" broken_world).
  - vm_compute. reflexivity.
  - right. left. vm_compute. reflexivity.
  - discriminate.
Defined.

Example run_goes_on_after_unreadable_file :
  fst (main (MkArgs ["a.ts"; "b.ts"] false None) broken_world) = 0
  /\ w_files (snd (main (MkArgs ["a.ts"; "b.ts"] false None) broken_world)) !! "b.ts"
     = Some (TextFile ["let b: unknown;"] true).
Proof. vm_compute. split; reflexivity. Qed.

(** X8. A path that is neither a file nor a directory is no error: when
    none of the paths given exists, the program reports 0 candidates and
    an all-zero summary, changes nothing and returns 0. *)
Theorem missing_paths_are_no_error `{RE : ReModule} (args : Args) (w : World) :
  (forall d, d ∈ paths args -> w_files w !! d = None /\ w_dirs w !! d = None) ->
  main args w
  = (0, MkWorld (w_files w) (w_dirs w) (w_out w ++ empty_report (arg_dry_run args))
                (w_sigint w)).
Proof.
  intros H. unfold main, run, collect_files. unfold bind at 1.
  rewrite (collect_nothing _ _ _ _ H). cbn [length for_each].
  unfold bind, print, ret, summary, empty_report. cbn [fst snd].
  rewrite main_replacer_dry.
  assert (F : files_processed (main_replacer args) = 0)
    by (unfold main_replacer; destruct (exclude args) as [[|]|]; reflexivity).
  assert (C : changes_made (main_replacer args) = 0)
    by (unfold main_replacer; destruct (exclude args) as [[|]|]; reflexivity).
  rewrite F, C. destruct (arg_dry_run args); cbn; rewrite <- ?app_assoc; reflexivity.
Qed.

Lemma X8_witness :
  main (MkArgs ["srcc"; "lib/missing.ts"] true None) two_files_world
  = (0, MkWorld (w_files two_files_world) (w_dirs two_files_world)
          (w_out two_files_world ++ empty_report true) (w_sigint two_files_world)).
Proof.
  apply (missing_paths_are_no_error (MkArgs ["srcc"; "lib/missing.ts"] true None)
           two_files_world).
  intros d Hd. apply list_elem_of_In in Hd. cbn in Hd.
  destruct Hd as [<-|[<-|[]]]; split; reflexivity.
Defined.

(** ** Discovery, in both directions *)

Section DiscoveryComplete.

Context `{RE : ReModule}.

Variable self : TypeScriptAnyReplacer.

Lemma file_loop_spec root files acc w acc' w' :
  for_each (file_step self root) files acc w = (Ok acc', w') ->
  forall p, p ∈ acc' <->
            p ∈ acc \/ exists f, f ∈ files /\ is_typescript f = true
                                 /\ should_exclude_file self (path_join root f) = Ok false
                                 /\ p = path_join root f.
Proof.
  revert acc w. induction files as [|f files IH]; intros acc w; cbn [for_each].
  - unfold ret. intros [= <- <-] p. split; [now left|].
    intros [?|(f & Hf & _)]; [assumption|inversion Hf].
  - unfold bind at 1.
    destruct (file_step self root acc f w) as [[acc1|] w1] eqn:E; [|discriminate].
    intros H p. rewrite (IH _ _ H p). clear IH H.
    assert (S : p ∈ acc1 <->
                p ∈ acc \/ (is_typescript f = true
                            /\ should_exclude_file self (path_join root f) = Ok false
                            /\ p = path_join root f)).
    { revert E. unfold file_step. destruct (is_typescript f).
      - unfold bind, lift. destruct (should_exclude_file _ _) as [[|]|]; try discriminate;
          unfold ret; cbn [negb]; intros [= <- <-].
        + split; [now left|]. intros [?|(_ & [=] & _)]. assumption.
        + rewrite elem_of_app, list_elem_of_singleton. split.
          * intros [?| ->]; [now left|right; repeat split].
          * intros [?|(_ & _ & ->)]; [now left|now right].
      - unfold ret. intros [= <- <-]. split; [now left|].
        intros [?|([=] & _)]. assumption. }
    rewrite S. split.
    + intros [[?|(T & X & ->)]|(g & Hg & T & X & ->)].
      * now left.
      * right. exists f. repeat split; auto. left.
      * right. exists g. repeat split; auto. now right.
    + intros [?|(g & Hg & T & X & ->)]; [now left; left|].
      apply elem_of_cons in Hg as [-> |Hg].
      * left. right. repeat split; auto.
      * right. exists g. repeat split; auto.
Qed.

Lemma keep_dirs_spec root dirs kept :
  keep_dirs self root dirs = Ok kept ->
  forall d, d ∈ kept <->
            d ∈ dirs /\ any_search (exclude_patterns self) (path_join root d) = Ok false.
Proof.
  revert kept. induction dirs as [|x dirs IH]; intros kept; cbn [keep_dirs].
  - intros [= <-] d. split; [intros H; inversion H|intros [H _]; inversion H].
  - destruct (any_search _ (path_join root x)) as [b|] eqn:E; [|discriminate].
    cbn [rbind]. destruct (keep_dirs self root dirs) as [k|]; [|discriminate].
    cbn [rbind]. intros [= <-] d. specialize (IH k eq_refl d). destruct b.
    + rewrite IH, elem_of_cons. split; [intros [? ?]; auto|].
      intros [[-> |?] N]; [congruence|auto].
    + rewrite !elem_of_cons, IH. split.
      * intros [-> |[? ?]]; auto.
      * intros [[-> |?] N]; auto.
Qed.

Lemma walk_body_spec top dirs files s w r w' :
  walk_body self top dirs files s w = (Ok r, w') ->
  keep_dirs self top dirs = Ok (fst r)
  /\ exists w0, for_each (file_step self top) files s w0 = (Ok (snd r), w').
Proof.
  unfold walk_body, bind, lift.
  destruct (keep_dirs self top dirs) as [kept|]; [|discriminate].
  destruct (for_each _ files s w) as [[ts|] w1] eqn:E; [|discriminate].
  unfold ret. intros [= <- <-]. split; [reflexivity|]. exists w. exact E.
Qed.

Lemma descend_unique {S} (walk : string -> tree -> S -> M S) top l d t s :
  NoDup (map fst l) -> (d, t) ∈ l ->
  descend_into walk top l d s = walk (path_join top d) t s.
Proof.
  induction l as [|[n t'] l IH]; intros N Hin; [inversion Hin|]. cbn [descend_into].
  cbn in N. apply NoDup_cons in N as [Nn N].
  apply elem_of_cons in Hin as [[= -> ->]|Hin].
  - now rewrite String.eqb_refl.
  - destruct (String.eqb n d) eqn:E; [|now apply IH].
    apply String.eqb_eq in E as ->. exfalso. apply Nn.
    apply list_elem_of_fmap. exists (d, t). split; [reflexivity|exact Hin].
Qed.

Lemma os_walk_sound t :
  forall top s w s' w' p,
    os_walk (walk_body self) top t s w = (Ok s', w') ->
    p ∈ s' -> p ∈ s \/ candidate self top t p.
Proof.
  induction t as [files dirs IH] using tree_induction.
  intros top s w s' w' p. cbn [os_walk]. unfold bind at 1.
  destruct (walk_body self top (map fst dirs) files s w) as [[r|] w1] eqn:B; [|discriminate].
  apply walk_body_spec in B as (K & w0 & F).
  assert (L : forall kept s1 w1 s' w',
             (forall d, d ∈ kept ->
                        any_search (exclude_patterns self) (path_join top d) = Ok false) ->
             for_each (fun s d => descend_into (os_walk (walk_body self)) top dirs d s)
                      kept s1 w1 = (Ok s', w') ->
             p ∈ s' -> p ∈ s1 \/ candidate self top (Node files dirs) p).
  { clear - IH. induction kept as [|d kept IHk]; intros s1 w1 s' w' N; cbn [for_each].
    - unfold ret. intros [= <- <-]. now left.
    - unfold bind at 1.
      destruct (descend_into _ top dirs d s1 w1) as [[s2|] w2] eqn:D; [|discriminate].
      intros H Hp.
      destruct (IHk _ _ _ _ (fun x Hx => N x (list_elem_of_further _ _ _ Hx)) H Hp)
        as [Hin|?]; [|now right].
      apply descend_inv in D as [-> |(t & Ht & Hw)]; [now left|].
      rewrite Forall_forall in IH. specialize (IH (d, t) Ht). cbn [snd] in IH.
      destruct (IH _ _ _ _ _ _ Hw Hin) as [?|C]; [now left|].
      right. apply candidate_below with d t; [exact Ht|apply N; left|exact C]. }
  intros H Hp.
  destruct (L _ _ _ _ _ (fun d Hd => proj2 (proj1 (keep_dirs_spec _ _ _ K d) Hd)) H Hp)
    as [Hin|?]; [|now right].
  apply (file_loop_spec _ _ _ _ _ _ F) in Hin as [?|(f & Hf & T & X & ->)]; [now left|].
  right. now apply candidate_here.
Qed.

Lemma os_walk_mono t :
  forall top s w s' w' p,
    os_walk (walk_body self) top t s w = (Ok s', w') -> p ∈ s -> p ∈ s'.
Proof.
  induction t as [files dirs IH] using tree_induction.
  intros top s w s' w' p. cbn [os_walk]. unfold bind at 1.
  destruct (walk_body self top (map fst dirs) files s w) as [[r|] w1] eqn:B; [|discriminate].
  apply walk_body_spec in B as (_ & w0 & F). intros H Hp.
  assert (Hr : p ∈ snd r) by (apply (file_loop_spec _ _ _ _ _ _ F); now left).
  clear F Hp. revert H Hr. generalize (snd r) w1. generalize (fst r).
  induction l as [|d kept IHk]; intros s1 w2; cbn [for_each].
  - unfold ret. now intros [= <- <-].
  - unfold bind at 1.
    destruct (descend_into _ top dirs d s1 w2) as [[s2|] w3] eqn:D; [|discriminate].
    intros H Hp. apply (IHk _ _ H).
    apply descend_inv in D as [-> |(t & Ht & Hw)]; [exact Hp|].
    rewrite Forall_forall in IH. exact (IH (d, t) Ht _ _ _ _ _ _ Hw Hp).
Qed.

Lemma os_walk_complete t :
  unique_names t ->
  forall top s w s' w' p,
    os_walk (walk_body self) top t s w = (Ok s', w') ->
    candidate self top t p -> p ∈ s'.
Proof.
  induction t as [files dirs IH] using tree_induction.
  intros U top s w s' w' p. inversion U as [? ? N Us]; subst.
  cbn [os_walk]. unfold bind at 1.
  destruct (walk_body self top (map fst dirs) files s w) as [[r|] w1] eqn:B; [|discriminate].
  apply walk_body_spec in B as (K & w0 & F).
  assert (Mono : forall kept s1 w1 s' w' q,
             for_each (fun s d => descend_into (os_walk (walk_body self)) top dirs d s)
                      kept s1 w1 = (Ok s', w') -> q ∈ s1 -> q ∈ s').
  { clear - IH. induction kept as [|d kept IHk]; intros s1 w1 s' w' q; cbn [for_each].
    - unfold ret. now intros [= <- <-].
    - unfold bind at 1.
      destruct (descend_into _ top dirs d s1 w1) as [[s2|] w2] eqn:D; [|discriminate].
      intros H Hq. apply (IHk _ _ _ _ _ H).
      apply descend_inv in D as [-> |(t & Ht & Hw)]; [exact Hq|].
      exact (os_walk_mono t _ _ _ _ _ _ Hw Hq). }
  intros H C. inversion C as [? ? ? f Hf T X|? ? ? d t q Hd Nx Cq]; subst.
  - apply (Mono _ _ _ _ _ _ H). apply (file_loop_spec _ _ _ _ _ _ F). right.
    exists f. repeat split; auto.
  - assert (Hk : d ∈ fst r).
    { apply (keep_dirs_spec _ _ _ K). split; [|exact Nx].
      apply list_elem_of_fmap. exists (d, t). split; [reflexivity|exact Hd]. }
    apply list_elem_of_split in Hk as (k1 & k2 & Ek). rewrite Ek in H.
    rewrite BuiltinFacts.for_each_app in H. unfold bind at 1 in H.
    destruct (for_each _ k1 (snd r) w1) as [[s1|] w2]; [|discriminate].
    cbn [for_each] in H. unfold bind at 1 in H.
    rewrite (descend_unique _ _ _ _ t _ N Hd) in H.
    destruct (os_walk (walk_body self) (path_join top d) t s1 w2) as [[s2|] w3] eqn:W;
      [|discriminate].
    apply (Mono _ _ _ _ _ _ H).
    rewrite Forall_forall in IH, Us.
    exact (IH (d, t) Hd (Us (d, t) Hd) _ _ _ _ _ _ W Cq).
Qed.

End DiscoveryComplete.

(** X9. What [find_typescript_files] returns for a directory is exactly
    the set of its candidates: the files whose name ends in [.ts] or
    [.tsx] but not in [.d.ts], that no exclude pattern matches, and that
    lie under subdirectories that no exclude pattern matches.  Every path
    returned is such a file; and when no directory lists two
    subdirectories of the same name, every such file is returned. *)
Theorem discovery_finds_exactly_the_candidates `{RE : ReModule}
    (self : TypeScriptAnyReplacer) (directory : string) (t : tree) (w : World)
    (found : list string) (w' : World) :
  w_dirs w !! directory = Some t ->
  find_typescript_files self directory w = (Ok found, w') ->
  (forall p, p ∈ found -> candidate self directory t p)
  /\ (unique_names t -> forall p, candidate self directory t p -> p ∈ found).
Proof.
  intros L. unfold find_typescript_files. rewrite L. unfold bind.
  destruct (os_walk (walk_body self) directory t [] w) as [[ts|] w1] eqn:E; [|discriminate].
  unfold ret. intros [= <- <-]. split.
  - intros p Hp. apply (proj1 (sorted_elem _ _)) in Hp.
    destruct (os_walk_sound self t _ _ _ _ _ _ E Hp) as [Hin|C]; [inversion Hin|exact C].
  - intros U p C. apply sorted_elem. exact (os_walk_complete self t U _ _ _ _ _ _ E C).
Qed.

Lemma X9_witness :
  (forall p, p ∈ ["src/a.ts"; "src/b.ts"; "src/lib/z.tsx"] ->
             candidate (extend_exclude (init false) ["gen$"]) "src" project_tree p)
  /\ "src/lib/z.tsx" ∈ ["src/a.ts"; "src/b.ts"; "src/lib/z.tsx"].
Proof.
  destruct (discovery_finds_exactly_the_candidates
              (extend_exclude (init false) ["gen$"]) "src" project_tree project_world
              ["src/a.ts"; "src/b.ts"; "src/lib/z.tsx"] project_world) as [S C].
  - vm_compute. reflexivity.
  - vm_compute. reflexivity.
  - split; [exact S|]. apply C.
    + unfold project_tree.
      repeat first [ apply unique_names_node | apply NoDup_nil_2
                   | apply NoDup_cons_2; [cbn; set_solver|]
                   | apply Forall_nil_2 | apply Forall_cons_2 | progress cbn ].
    + change "src/lib/z.tsx" with (path_join (path_join "src" "lib") "z.tsx").
      unfold project_tree.
      apply candidate_below with (d := "lib") (t := Node ["z.tsx"] []).
      * set_solver.
      * vm_compute. reflexivity.
      * apply candidate_here; [set_solver| |]; vm_compute; reflexivity.
Defined.

(** ** The built-in exclude patterns *)

Module SearchFacts.

Lemma rmatch_lit_no w tail prev rest caps k :
  is_prefix w rest = false ->
  rmatch (lit_then w tail) (MState prev rest caps) k = None.
Proof.
  revert prev rest. induction w as [|c w IH]; intros prev rest; cbn [is_prefix lit_then fold_right].
  - discriminate.
  - destruct rest as [|c' tl]; cbn [rmatch m_rest]; [reflexivity|]. cbn [cset_mem m_caps].
    destruct (Ascii.eqb c c'); [|reflexivity]. cbn [andb]. apply IH.
Qed.

Lemma rmatch_lit_yes w tail prev rest caps k :
  is_prefix w rest = true ->
  exists prev', rmatch (lit_then w tail) (MState prev rest caps) k
                = rmatch tail (MState prev' (drop (length w) rest) caps) k.
Proof.
  revert prev rest. induction w as [|c w IH]; intros prev rest; cbn [is_prefix lit_then fold_right].
  - intros _. exists prev. reflexivity.
  - destruct rest as [|c' tl]; [discriminate|]. cbn [rmatch m_rest cset_mem m_caps].
    destruct (Ascii.eqb c c'); [|discriminate]. cbn [andb]. intros H.
    destruct (IH (Some c') tl H) as [p E]. exists p. exact E.
Qed.

(** Whether [search_go] finds a match of the literal text [w]. *)
Lemma search_lit w prev rest :
  search_go (lit_then w Empty) prev rest = None <-> has_infix w rest = false.
Proof.
  revert prev. induction rest as [|c tl IH]; intros prev; cbn [search_go has_infix];
    unfold match_here.
  - destruct (is_prefix w []) eqn:P.
    + destruct (rmatch_lit_yes w Empty prev [] [] (fun st' => Some st') P) as [p E].
      cbn [andb] in *. rewrite E. cbn. split; discriminate.
    + cbn [andb]. rewrite rmatch_lit_no by exact P. split; reflexivity.
  - destruct (is_prefix w (c :: tl)) eqn:P.
    + destruct (rmatch_lit_yes w Empty prev (c :: tl) [] (fun st' => Some st') P) as [p E].
      cbn [andb] in *. rewrite E. cbn. split; discriminate.
    + cbn [andb]. rewrite rmatch_lit_no by exact P. cbn [orb]. apply IH.
Qed.

Lemma search_lit_eol w prev rest :
  search_go (lit_then w (Cat Eol Empty)) prev rest = None <-> at_end_after w rest = false.
Proof.
  revert prev. induction rest as [|c tl IH]; intros prev; cbn [search_go at_end_after];
    unfold match_here.
  - destruct (is_prefix w []) eqn:P.
    + destruct (rmatch_lit_yes w (Cat Eol Empty) prev [] [] (fun st' => Some st') P) as [p E].
      cbn [andb] in *. rewrite E. cbn [rmatch m_rest].
      destruct (at_end (drop (length w) [])); cbn; split; (discriminate || reflexivity).
    + cbn [andb]. rewrite rmatch_lit_no by exact P. split; reflexivity.
  - destruct (is_prefix w (c :: tl)) eqn:P.
    + destruct (rmatch_lit_yes w (Cat Eol Empty) prev (c :: tl) [] (fun st' => Some st') P)
        as [p E].
      cbn [andb] in *. rewrite E. cbn [rmatch m_rest].
      destruct (at_end (drop (length w) (c :: tl))); cbn [orb andb].
      * split; discriminate.
      * apply IH.
    + cbn [andb]. rewrite rmatch_lit_no by exact P. cbn [orb]. apply IH.
Qed.

Lemma at_end_spec s : at_end s = true <-> s = [] \/ s = [newline].
Proof.
  destruct s as [|c [|d s]]; cbn.
  - split; auto.
  - rewrite Ascii.eqb_eq. split; [intros ->; now right|intros [[=]|[= ->]]; reflexivity].
  - split; [discriminate|intros [[=]|[=]]].
Qed.

Lemma at_end_after_spec w s :
  at_end_after w s = true <->
  (exists pre, s = (pre ++ w)%list) \/ (exists pre, s = (pre ++ w ++ [newline])%list).
Proof.
  induction s as [|c s IH]; cbn [at_end_after].
  - destruct w as [|a w]; cbn.
    + split; [intros _; left; now exists []|reflexivity].
    + split; [discriminate|intros [[pre E]|[pre E]]; destruct pre; discriminate].
  - rewrite orb_true_iff, IH, andb_true_iff, EngineFacts.is_prefix_spec, at_end_spec. split.
    + intros [[[post E] D]|[[pre E]|[pre E]]].
      * rewrite E, drop_app_length in D. destruct D as [-> | ->].
        -- left. exists []. rewrite E. now rewrite app_nil_r.
        -- right. exists []. exact E.
      * left. exists (c :: pre). now rewrite E.
      * right. exists (c :: pre). now rewrite E.
    + intros [[pre E]|[pre E]].
      * destruct pre as [|c' pre].
        -- left. cbn in E. rewrite E. split; [exists []; now rewrite app_nil_r|].
           left. now rewrite drop_all.
        -- right. left. exists pre. now injection E.
      * destruct pre as [|c' pre].
        -- left. cbn in E. rewrite E. split; [now exists [newline]|].
           right. now rewrite drop_app_length.
        -- right. right. exists pre. now injection E.
Qed.

Lemma endswith_spec s suffix :
  endswith s suffix = true <-> exists pre, chars s = (pre ++ chars suffix)%list.
Proof.
  unfold endswith. rewrite EngineFacts.is_prefix_spec. split.
  - intros [post E]. exists (rev post).
    rewrite <- (rev_involutive (chars s)), E, rev_app_distr, rev_involutive. reflexivity.
  - intros [pre E]. exists (rev pre). rewrite E, rev_app_distr. reflexivity.
Qed.

Lemma chars_append a b : chars (a +:+ b) = (chars a ++ chars b)%list.
Proof.
  induction a as [|c a IH]; [reflexivity|].
  change (c :: chars (a +:+ b) = c :: (chars a ++ chars b)%list). now rewrite IH.
Qed.

Lemma at_end_after_endswith w path :
  at_end_after (chars w) (chars path) = endswith path w || endswith path (w +:+ nl).
Proof.
  apply eq_true_iff_eq. rewrite orb_true_iff, at_end_after_spec, !endswith_spec.
  rewrite chars_append. reflexivity.
Qed.

End SearchFacts.

Lemma any_search_step `{RE : ReModule} pattern patterns s (hit : bool) :
  (exists m, re_search pattern s = Ok m /\ (m = None <-> hit = false)) ->
  any_search (pattern :: patterns) s = if hit then Ok true else any_search patterns s.
Proof.
  intros (m & E & H). cbn [any_search]. rewrite E. cbn [rbind].
  destruct m as [m|], hit; try reflexivity.
  - destruct H as [_ H]. discriminate (H eq_refl).
  - destruct H as [H _]. discriminate (H eq_refl).
Qed.

Lemma literal_step pattern patterns path :
  re_compile pattern = Ok (lit_then (chars pattern) Empty, 0) ->
  any_search (pattern :: patterns) path
  = if str_in pattern path then Ok true else any_search patterns path.
Proof.
  intros C. apply any_search_step. cbn [re_search sre]. unfold sre_search.
  rewrite C. cbn [rbind fst]. eexists. split; [reflexivity|].
  apply SearchFacts.search_lit.
Qed.

Lemma should_exclude_builtin (d : bool) (file_path : string) :
  should_exclude_file (init d) file_path = Ok (builtin_excluded file_path).
Proof.
  rewrite should_exclude_file_any. cbn [exclude_patterns init]. unfold builtin_exclude.
  rewrite (any_search_step "\.d\.ts$" _ file_path
             (at_end_after (chars ".d.ts") (chars file_path))).
  2: { cbn [re_search sre]. unfold sre_search.
       assert (C : re_compile "\.d\.ts$" = Ok (lit_then (chars ".d.ts") (Cat Eol Empty), 0))
         by (vm_compute; reflexivity).
       rewrite C. cbn [rbind fst]. eexists. split; [reflexivity|].
       apply SearchFacts.search_lit_eol. }
  rewrite SearchFacts.at_end_after_endswith. unfold builtin_excluded.
  rewrite (literal_step "node_modules/") by (vm_compute; reflexivity).
  assert (G : any_search ["\.git/"; "dist/"; "build/"] file_path
              = if str_in ".git/" file_path then Ok true
                else any_search ["dist/"; "build/"] file_path).
  { apply any_search_step. cbn [re_search sre]. unfold sre_search.
    assert (C : re_compile "\.git/" = Ok (lit_then (chars ".git/") Empty, 0))
      by (vm_compute; reflexivity).
    rewrite C. cbn [rbind fst]. eexists. split; [reflexivity|].
    apply SearchFacts.search_lit. }
  rewrite G.
  rewrite (literal_step "dist/") by (vm_compute; reflexivity).
  rewrite (literal_step "build/") by (vm_compute; reflexivity).
  cbn [any_search].
  destruct (endswith file_path ".d.ts" || endswith file_path (".d.ts" +:+ nl)); [reflexivity|].
  cbn [orb].
  destruct (str_in "node_modules/" file_path), (str_in ".git/" file_path),
    (str_in "dist/" file_path), (str_in "build/" file_path); reflexivity.
Qed.

(** X10. Under the built-in patterns a path is excluded exactly when it
    ends in [.d.ts] (a final newline apart) or contains one of
    [node_modules/], [.git/], [dist/] and [build/], anywhere in it. *)
Theorem builtin_exclusion (d : bool) (file_path : string) :
  should_exclude_file (init d) file_path = Ok (builtin_excluded file_path).
Proof. apply should_exclude_builtin. Qed.

Lemma X10_witness :
  should_exclude_file (init false) "src/redist/types.ts" = Ok true
  /\ should_exclude_file (init false) "src/api.d.ts" = Ok true
  /\ should_exclude_file (init false) "src/node_modules" = Ok false.
Proof.
  rewrite !builtin_exclusion. vm_compute. repeat split.
Defined.

Lemma any_search_app_true `{RE : ReModule} l1 l2 s :
  any_search l1 s = Ok true -> any_search (l1 ++ l2) s = Ok true.
Proof.
  induction l1 as [|p l1 IH]; cbn [any_search app]; [discriminate|].
  destruct (re_search p s) as [[m|]|e]; cbn [rbind]; auto.
Qed.

Lemma main_replacer_patterns `{RE : ReModule} args :
  exists more, exclude_patterns (main_replacer args) = (builtin_exclude ++ more)%list
               /\ (forall p, p ∈ more -> p ∈ default [] (exclude args)).
Proof.
  unfold main_replacer. destruct (exclude args) as [[|p ps]|].
  - exists []. split; [reflexivity|]. intros p H. inversion H.
  - exists (p :: ps). split; [reflexivity|]. auto.
  - exists []. split; [reflexivity|]. intros p H. inversion H.
Qed.

Lemma main_replacer_tables `{RE : ReModule} args :
  replacements (main_replacer args) = general_rules
  /\ context_replacements (main_replacer args) = context_replacements (init (arg_dry_run args))
  /\ preserve_patterns (main_replacer args) = builtin_preserve.
Proof. unfold main_replacer. destruct (exclude args) as [[|p ps]|]; repeat split. Qed.

(** X11. Whatever [--exclude] adds, a path that the built-in patterns
    exclude is never opened: [process_file] returns [False] at once,
    prints nothing and leaves the world as it is, also when a pattern
    added by the user does not compile. *)
Theorem builtin_excluded_never_opened (args : Args) (file_path : string) (w : World) :
  builtin_excluded file_path = true ->
  process_file (main_replacer args) file_path w = (Ok (main_replacer args, false), w).
Proof.
  intros B. unfold process_file, bind, lift.
  assert (X : should_exclude_file (main_replacer args) file_path = Ok true).
  { rewrite should_exclude_file_any.
    destruct (main_replacer_patterns args) as (more & -> & _).
    apply any_search_app_true.
    pose proof (should_exclude_builtin false file_path) as H.
    rewrite should_exclude_file_any in H. cbn [exclude_patterns init] in H.
    now rewrite H, B. }
  rewrite X. reflexivity.
Qed.

Lemma X11_witness :
  process_file (main_replacer (MkArgs ["x"] false (Some ["("]))) "lib/build/out.ts"
    two_files_world
  = (Ok (main_replacer (MkArgs ["x"] false (Some ["("])), false), two_files_world).
Proof.
  apply builtin_excluded_never_opened. vm_compute. reflexivity.
Defined.

(** ** The line processor under the built-in tables *)

Lemma process_line_tables `{RE : ReModule} s1 s2 line file_context :
  preserve_patterns s1 = preserve_patterns s2 ->
  context_replacements s1 = context_replacements s2 ->
  replacements s1 = replacements s2 ->
  process_line s1 line file_context = process_line s2 line file_context.
Proof.
  intros P C R. unfold process_line, should_preserve_line. now rewrite P, C, R.
Qed.

Lemma process_line_main_replacer args line file_context :
  process_line (main_replacer args) line file_context
  = process_line (init (arg_dry_run args)) line file_context.
Proof.
  destruct (main_replacer_tables args) as (R & C & P).
  apply process_line_tables; assumption.
Qed.

Lemma context_rules_short d file_context rules :
  context_replacements (init d) !! file_context = Some rules -> length rules <= 2.
Proof.
  intros L. unfold init in L. cbn [context_replacements] in L.
  repeat (rewrite lookup_insert in L; case_decide; [injection L as <-; cbn; lia|]).
  rewrite lookup_empty in L. discriminate.
Qed.

Lemma applied_rules_with_replacements `{RE : ReModule} self rules line file_context :
  applied_rules (with_replacements self rules) line file_context
  = match should_preserve_line self line with
    | Ok false => (default [] (context_replacements self !! file_context) ++ rules)%list
    | _ => []
    end.
Proof. reflexivity. Qed.

Lemma process_line_total (args : Args) (line file_context : string) (w : World) :
  exists out n,
    fst (process_line (main_replacer args) line file_context w) = Ok (out, n)
    /\ n <= 17
    /\ (snd (process_line (main_replacer args) line file_context w) = w
        \/ snd (process_line (main_replacer args) line file_context w) = Builtin.warn w).
Proof.
  rewrite process_line_main_replacer. set (d := arg_dry_run args).
  destruct (builtin_preserve_total d line) as (b & P & _). destruct b.
  - rewrite (process_line_preserved _ _ _ _ P). exists line, 0. repeat split; [lia|now left].
  - destruct (process_line_builtin d line file_context w P) as (out & n & E & E').
    exists out, n. rewrite E. repeat split; [|now right].
    apply process_line_count in E' as [-> _].
    etransitivity; [apply changed_applications_le|].
    rewrite applied_rules_with_replacements, P, length_app.
    assert (W : length Builtin.working_rules = 15) by reflexivity. rewrite W.
    destruct (context_replacements (init d) !! file_context) as [rules|] eqn:L; cbn [default].
    + apply context_rules_short in L. unfold id. lia.
    + cbn. lia.
Qed.

(** X12. Under the built-in tables [process_line] never raises, for any
    line and any context label, known or not: the one pattern that does
    not compile is caught.  It prints nothing but that warning, and the
    count it returns is at most 17, the two context rules and the fifteen
    general rules that compile. *)
Theorem process_line_never_raises (args : Args) (line file_context : string) (w : World) :
  exists out n,
    fst (process_line (main_replacer args) line file_context w) = Ok (out, n)
    /\ n <= 17
    /\ (snd (process_line (main_replacer args) line file_context w) = w
        \/ snd (process_line (main_replacer args) line file_context w) = Builtin.warn w).
Proof. apply process_line_total. Qed.

(** ** Files in which nothing matches *)

Lemma line_loop_without_any args file_context lines acc0 w :
  Forall (fun line => str_in "any" line = false) lines ->
  exists k w',
    for_each (line_step (main_replacer args) file_context) lines acc0 w
    = (Ok (k, (snd (fst acc0) ++ lines)%list, snd acc0), w').
Proof.
  intros F. revert acc0 w. induction F as [|line lines N F IH]; intros acc0 w; cbn [for_each].
  - exists (fst (fst acc0)), w. rewrite app_nil_r. now destruct acc0 as [[? ?] ?].
  - unfold bind at 1. unfold line_step at 1. unfold bind at 1.
    rewrite process_line_main_replacer.
    pose proof (process_line_without_any (arg_dry_run args) line file_context w N) as E.
    destruct (process_line (init (arg_dry_run args)) line file_context w) as [r w1].
    cbn [fst] in E. subst r. cbn [fst snd Nat.ltb Nat.leb andb]. unfold bind at 1, ret at 1.
    destruct (IH (S (fst (fst acc0)), (snd (fst acc0) ++ [line])%list, snd acc0 + 0) w1)
      as (k & w' & E).
    exists k, w'. unfold ret at 1. rewrite E. cbn [fst snd].
    rewrite <- app_assoc, Nat.add_0_r. reflexivity.
Qed.

Lemma process_file_without_any (args : Args) (file_path : string) (w : World)
    (lines : list string) (wr : bool) :
  w_files w !! file_path = Some (TextFile lines wr) ->
  Forall (fun line => str_in "any" line = false) lines ->
  w_files (snd (process_file (main_replacer args) file_path w)) = w_files w
  /\ (forall self' b, fst (process_file (main_replacer args) file_path w) = Ok (self', b) ->
                      b = false).
Proof.
  intros L F. split; [|intros self' b].
  - unfold process_file, bind, lift.
    destruct (should_exclude_file _ file_path) as [[|]|]; try reflexivity.
    pose proof (keeps_try_read file_path w) as [K _].
    destruct (try_read file_path w) as [[[ls|]|e] w1] eqn:R; cbn [snd] in *; try exact K.
    destruct (try_read_some _ _ _ _ R) as [wr' L']. rewrite L in L'. injection L' as <- <-.
    unfold transform.
    destruct (line_loop_without_any args (get_file_context file_path) lines (1, [], 0) w1 F)
      as (k & w2 & E).
    pose proof (keeps_transform (main_replacer args) (get_file_context file_path) lines w1)
      as [K2 _].
    unfold transform in K2. rewrite E in *. cbn [fst snd Nat.ltb Nat.leb] in *. cbn. congruence.
  - unfold process_file, bind, lift.
    destruct (should_exclude_file _ file_path) as [[|]|]; try discriminate.
    + unfold ret. now intros [= _ <-].
    + destruct (try_read file_path w) as [[[ls|]|e] w1] eqn:R; cbn [fst]; try discriminate.
      * destruct (try_read_some _ _ _ _ R) as [wr' L']. rewrite L in L'.
        injection L' as <- <-. unfold transform.
        destruct (line_loop_without_any args (get_file_context file_path) lines (1, [], 0)
                    w1 F) as (k & w2 & E).
        rewrite E. cbn [fst snd Nat.ltb Nat.leb]. unfold ret. cbn. now intros [= _ <-].
      * unfold ret. cbn. now intros [= _ <-].
Qed.

(** X13. A file in which no line contains the text [any] is never
    modified: whatever the options, [process_file] leaves every content
    as it is and, when it returns, returns [False]. *)
Theorem file_without_any_is_not_modified (args : Args) (file_path : string) (w : World)
    (lines : list string) (wr : bool) :
  w_files w !! file_path = Some (TextFile lines wr) ->
  Forall (fun line => str_in "any" line = false) lines ->
  w_files (snd (process_file (main_replacer args) file_path w)) = w_files w
  /\ (forall self' b, fst (process_file (main_replacer args) file_path w) = Ok (self', b) ->
                      b = false).
Proof. apply process_file_without_any. Qed.

Lemma X13_witness :
  w_files (snd (process_file (main_replacer (MkArgs ["src/b.ts"] false None)) "src/b.ts"
                  writable_world))
  = w_files writable_world.
Proof.
  apply (file_without_any_is_not_modified (MkArgs ["src/b.ts"] false None) "src/b.ts"
           writable_world ["ok"] true).
  - vm_compute. reflexivity.
  - repeat constructor.
Defined.

(** ** Runs that cannot fail *)

Lemma pure_ok_ret {A} (a : A) : pure_ok (ret a).
Proof. intros w. now exists a. Qed.

Lemma pure_ok_bind {A B} (m : M A) (k : A -> M B) :
  pure_ok m -> (forall a, pure_ok (k a)) -> pure_ok (bind m k).
Proof.
  intros Hm Hk w. unfold bind. destruct (Hm w) as [a ->]. apply Hk.
Qed.

Lemma pure_ok_for_each {A S} (body : S -> A -> M S) l s :
  (forall s x, pure_ok (body s x)) -> pure_ok (for_each body l s).
Proof.
  intros Hb. revert s. induction l as [|x l IH]; intros s; cbn [for_each].
  - apply pure_ok_ret.
  - apply pure_ok_bind; [apply Hb|exact IH].
Qed.

Lemma pure_ok_descend {S} (walk : string -> tree -> S -> M S) top l d s :
  Forall (fun nt => forall top' s', pure_ok (walk top' (snd nt) s')) l ->
  pure_ok (descend_into walk top l d s).
Proof.
  induction 1 as [|[n t] l Ht _ IH]; cbn [descend_into].
  - apply pure_ok_ret.
  - destruct (String.eqb n d); [apply Ht|exact IH].
Qed.

Lemma pure_ok_os_walk {S} (body : string -> list string -> list string -> S -> M (list string * S)) :
  (forall top dirs files s, pure_ok (body top dirs files s)) ->
  forall t top s, pure_ok (os_walk body top t s).
Proof.
  intros Hb. induction t as [files dirs IH] using tree_induction. intros top s.
  cbn [os_walk]. apply pure_ok_bind; [apply Hb|]. intros r.
  apply pure_ok_for_each. intros s' d. apply pure_ok_descend. exact IH.
Qed.

Lemma succeeds_for_each_inv {A S} (Inv : World -> Prop) (SI : S -> Prop)
    (body : S -> A -> M S) l s :
  (forall s x, SI s -> forall w, Inv w ->
     exists s' w', body s x w = (Ok s', w') /\ Inv w' /\ SI s') ->
  SI s -> forall w, Inv w ->
  exists s' w', for_each body l s w = (Ok s', w') /\ Inv w' /\ SI s'.
Proof.
  intros Hb. revert s. induction l as [|x l IH]; intros s I w Hw; cbn [for_each].
  - exists s, w. repeat split; assumption.
  - unfold bind. destruct (Hb s x I w Hw) as (s1 & w1 & -> & Hw1 & I1).
    exact (IH s1 I1 w1 Hw1).
Qed.

Lemma benign_prints w out :
  benign w -> benign (MkWorld (w_files w) (w_dirs w) out (w_sigint w)).
Proof. intros [S F]. split; [exact S|exact F]. Qed.

Lemma benign_same w w' : benign w -> only_prints w w' -> benign w'.
Proof. intros [S F] (Ef & _ & Es). split; [congruence|]. now rewrite Ef. Qed.

Section CleanRun.

Variable args : Args.

Hypothesis user_patterns : exclude_compiles args.

Lemma builtin_exclude_compile :
  forallb (fun p => match re_compile p with Ok _ => true | Raise _ => false end)
          builtin_exclude = true.
Proof. vm_compute. reflexivity. Qed.

Lemma exclusion_total self s :
  same_tables (main_replacer args) self ->
  exists b, any_search (exclude_patterns self) s = Ok b.
Proof.
  intros (_ & _ & _ & -> & _).
  destruct (main_replacer_patterns args) as (more & -> & Hm).
  destruct (any_search_total (builtin_exclude ++ more) s) as (b & E & _).
  - intros p Hp. cbn [re_search sre]. unfold sre_search.
    apply elem_of_app in Hp as [Hp|Hp].
    + pose proof (BuiltinFacts.forallb_elem _ _ _ builtin_exclude_compile Hp) as C.
      cbn beta in C. destruct (re_compile p); [|discriminate]. eexists. reflexivity.
    + destruct (user_patterns p (Hm p Hp)) as [c ->]. eexists. reflexivity.
  - now exists b.
Qed.

Variable self : TypeScriptAnyReplacer.

Hypothesis tables : same_tables (main_replacer args) self.

Lemma should_exclude_total path : exists b, should_exclude_file self path = Ok b.
Proof. rewrite should_exclude_file_any. now apply exclusion_total. Qed.

Lemma keep_dirs_total root dirs : exists kept, keep_dirs self root dirs = Ok kept.
Proof.
  induction dirs as [|d dirs [kept IH]]; cbn [keep_dirs]; [now eexists|].
  destruct (exclusion_total self (path_join root d) tables) as [b ->]. rewrite IH.
  cbn [rbind]. now eexists.
Qed.

Lemma find_total directory : pure_ok (find_typescript_files self directory).
Proof.
  intros w. unfold find_typescript_files.
  destruct (w_dirs w !! directory) as [t|]; [|now eexists].
  revert w. apply pure_ok_bind; [|intros; apply pure_ok_ret].
  apply pure_ok_os_walk. intros top dirs files s. unfold walk_body.
  apply pure_ok_bind.
  { intros w. unfold lift. destruct (keep_dirs_total top dirs) as [kept ->]. now eexists. }
  intros kept. apply pure_ok_bind; [|intros; apply pure_ok_ret].
  apply pure_ok_for_each. intros acc file. unfold file_step.
  destruct (is_typescript file); [|apply pure_ok_ret].
  apply pure_ok_bind.
  { intros w. unfold lift. destruct (should_exclude_total (path_join top file)) as [b ->].
    now eexists. }
  intros []; apply pure_ok_ret.
Qed.

Lemma collect_total directories : pure_ok (collect_files self directories).
Proof.
  unfold collect_files. apply pure_ok_for_each. intros acc d. unfold collect_step.
  apply pure_ok_bind; [intros w; now eexists|].
  intros []; [apply pure_ok_ret|].
  apply pure_ok_bind; [apply find_total|intros; apply pure_ok_ret].
Qed.

Lemma process_line_self line file_context :
  process_line self line file_context = process_line (main_replacer args) line file_context.
Proof.
  destruct tables as (_ & R & C & _ & P). now apply process_line_tables.
Qed.

Lemma transform_succeeds file_context lines :
  succeeds benign (transform self file_context lines).
Proof.
  unfold transform. generalize (1, @nil string, 0).
  induction lines as [|line lines IH]; intros acc w B; cbn [for_each].
  - exists acc, w. split; [reflexivity|exact B].
  - unfold bind at 1. unfold line_step at 1. unfold bind at 1. rewrite process_line_self.
    destruct (process_line_total args line file_context w) as (out & n & E & _ & W).
    destruct (process_line (main_replacer args) line file_context w) as [r w1].
    cbn [fst snd] in *. subst r.
    assert (B1 : benign w1) by (destruct W as [-> | ->]; [exact B|now apply benign_prints]).
    unfold bind at 1. cbn [fst snd].
    destruct ((0 <? n)%nat && negb (dry_run self)).
    + unfold print at 1, ret at 1. apply IH. now apply benign_prints.
    + unfold ret at 1 2. apply IH. exact B1.
Qed.

Lemma try_read_succeeds path : succeeds benign (try_read path).
Proof.
  intros w [S F]. unfold try_read, read_lines. rewrite S. cbn [option_map].
  assert (B : benign (set_sigint None w)) by (split; [reflexivity|exact F]).
  destruct (w_files w !! path) as [[lines wr| |]|].
  - eexists _, _. split; [reflexivity|exact B].
  - eexists _, _. split; [reflexivity|]. now apply benign_prints.
  - eexists _, _. split; [reflexivity|]. now apply benign_prints.
  - eexists _, _. split; [reflexivity|]. now apply benign_prints.
Qed.

Lemma process_file_succeeds path :
  forall w, benign w ->
  exists self' b w', process_file self path w = (Ok (self', b), w') /\ benign w'.
Proof.
  intros w B. unfold process_file, bind, lift.
  destruct (should_exclude_total path) as [[|] ->].
  { eexists _, _, _. split; [reflexivity|exact B]. }
  pose proof (keeps_try_read path w) as K1.
  destruct (try_read_succeeds path w B) as (read & w1 & R & B1). rewrite R in *.
  destruct read as [lines|]; [|eexists _, _, _; split; [reflexivity|exact B1]].
  pose proof (keeps_transform self (get_file_context path) lines w1) as K2.
  destruct (transform_succeeds (get_file_context path) lines w1 B1) as (acc & w2 & T & B2).
  rewrite T in *. cbn [snd] in *.
  destruct (0 <? snd acc)%nat; [|eexists _, _, _; split; [reflexivity|exact B2]].
  destruct (dry_run self).
  - unfold print, ret. cbn. eexists _, _, _. split; [reflexivity|].
    now apply benign_prints.
  - unfold write_lines, can_write.
    destruct (try_read_some _ _ _ _ R) as [wr L].
    destruct K1 as [F1 _], K2 as [F2 _]. rewrite F2, F1, L.
    destruct B as [S F]. rewrite (F _ _ _ L).
    unfold print, ret. cbn. eexists _, _, _. split; [reflexivity|].
    destruct B2 as [S2 G2]. split; [exact S2|]. cbn. intros p ls wr' Hp.
    destruct (decide (path = p)) as [->|N].
    + rewrite lookup_insert_eq in Hp. now injection Hp.
    + rewrite lookup_insert_ne in Hp by exact N. exact (F _ _ _ Hp).
Qed.

End CleanRun.

Lemma run_succeeds (args : Args) (w : World) :
  exclude_compiles args -> benign w ->
  exists self' w', run (main_replacer args) (paths args) w = (Ok self', w').
Proof.
  intros U B. unfold run. unfold bind at 1.
  destruct (collect_total args U (main_replacer args) (same_tables_refl _) (paths args) w)
    as [l ->].
  unfold bind at 1. unfold print at 1. unfold bind at 1.
  set (w1 := MkWorld _ _ _ _). assert (B1 : benign w1) by now apply benign_prints.
  assert (B2 : exists w2, (if dry_run (main_replacer args)
                           then print "=== DRY RUN MODE - No files will be modified ==="
                           else ret tt) w1 = (Ok tt, w2) /\ benign w2).
  { destruct (dry_run _); eexists; (split; [reflexivity|]);
      [now apply benign_prints|exact B1]. }
  destruct B2 as (w2 & -> & B2). unfold bind at 1.
  destruct (succeeds_for_each_inv benign
              (fun acc => same_tables (main_replacer args) (fst acc))
              file_loop_step l (main_replacer args, 0)) with (w := w2)
    as (acc & w3 & -> & B3 & T); [|apply same_tables_refl|exact B2|].
  - intros s x I w0 B0. unfold file_loop_step, bind.
    assert (Tc : same_tables (main_replacer args) (count_file (fst s))) by exact I.
    destruct (process_file_succeeds args U _ Tc x w0 B0) as (s1 & b & w' & E & B').
    rewrite E. unfold ret. eexists _, _. split; [reflexivity|]. split; [exact B'|].
    cbn [fst]. apply process_file_self in E as (T1 & _).
    destruct Tc as (?&?&?&?&?), T1 as (?&?&?&?&?). repeat split; congruence.
  - unfold bind at 1. rewrite summary_prints. unfold ret. eexists _, _. reflexivity.
Qed.

(** X14. When every [--exclude] pattern compiles, no interrupt arrives
    and no text file is write-protected, the program returns 0: neither
    the discovery, nor a line, nor a file that cannot be read makes the
    run fail. *)
Theorem clean_run_returns_0 (args : Args) (w : World) :
  exclude_compiles args -> benign w -> fst (main args w) = 0.
Proof.
  intros U B. unfold main. destruct (run_succeeds args w U B) as (s & w' & ->). reflexivity.
Qed.

Lemma X14_witness :
  fst (main (MkArgs ["a.ts"; "nowhere"; "b.ts"] false (Some ["gen$"])) broken_world) = 0.
Proof.
  apply clean_run_returns_0.
  - intros p Hp. apply list_elem_of_In in Hp. cbn in Hp. destruct Hp as [<-|[]].
    eexists. vm_compute. reflexivity.
  - split; [reflexivity|]. intros p lines wr H.
    unfold broken_world in H. cbn [w_files] in H.
    rewrite lookup_insert in H. case_decide; [discriminate|].
    rewrite lookup_insert in H. case_decide; [now injection H|].
    rewrite lookup_empty in H. discriminate.
Defined.
